(** * Ewald summation kernels of YAFF ([yaff/ewald.c])

    A shallow embedding of [compute_ewald_reci] and [compute_ewald_corr],
    and the properties of the reciprocal-space sum and of the real-space
    correction that follow from the code.

    Conventions of the embedding.
    - A C [double] is a real number ([R]): rounding, infinities and NaN are
      not modelled, so every statement below is one of exact real
      arithmetic.
    - A C [long] is an integer ([Z]); signed overflow is undefined behaviour
      in C and is not modelled.
    - A [double*] or [long*] argument is a total map from the element index
      to its value; a pointer that may be [NULL] is an [option] of such a
      map.  Distinct arguments are distinct arrays (no aliasing between
      [pos], [gpos], [work] and [vtens]).
    - [scaling] together with [scaling_size] is the list of its rows.
    - Division is total on [R] (x/0 = 0), where the code gets an infinity or
      a NaN; and [Z] has no largest value, where a loop counter of the code
      would overflow.  A statement whose truth depends on either carries the
      hypothesis that keeps the input where model and code agree: a
      non-zero divisor, loop bounds inside the range of [long]. *)

From Stdlib Require Import Reals.Reals Reals.RiemannInt.
From Stdlib Require Import ZArith List Lia Lra Permutation FinFun.
Import ListNotations.

Open Scope R_scope.

(** ** Constants of [constants.h] *)

(** Modelled from the spec: [constants.h] is not available;
    the spec writes the three constants used by [ewald.c] as 2π, √π and
    2/√π. *)
Definition M_TWO_PI : R := 2 * PI.
Definition M_SQRT_PI : R := sqrt PI.
Definition M_TWO_DIV_SQRT_PI : R := 2 / sqrt PI.

(** ** The error function of [math.h] *)

(** The integrand of the error function. *)
Definition gauss (t : R) : R := exp (- (t * t)).

Lemma gauss_continuity : forall x : R, continuity_pt gauss x.
Proof.
  intro x. apply derivable_continuous_pt. unfold gauss.
  apply (derivable_pt_comp (fun t => - (t * t)) exp).
  - apply derivable_pt_opp. apply derivable_pt_mult; apply derivable_pt_id.
  - apply derivable_pt_exp.
Qed.

Definition gauss_integrable (a b : R) : Riemann_integrable gauss a b :=
  match Rle_dec a b with
  | left Hab =>
      continuity_implies_RiemannInt Hab (fun x _ => gauss_continuity x)
  | right Hab =>
      RiemannInt_P1
        (continuity_implies_RiemannInt
           (Rlt_le _ _ (Rnot_le_lt _ _ Hab))
           (fun x _ => gauss_continuity x))
  end.

(** [erf] belongs to the C library, like [cos], [sin], [exp] and [sqrt];
    each is taken to be the mathematical function of that name.  [erf x] is
    2/√π times the integral of exp(−t²) from 0 to x. *)
Definition erf (x : R) : R :=
  M_TWO_DIV_SQRT_PI * RiemannInt (gauss_integrable 0 x).

(** ** Arrays and loops *)

(** A [double*] array and a [long*] array. *)
Definition buf : Type := Z -> R.
Definition ibuf : Type := Z -> Z.

(** A local [double v[3]]. *)
Definition vec3 : Type := (R * R * R)%type.

(** [b[idx] = v] *)
Definition upd (b : buf) (idx : Z) (v : R) : buf :=
  fun j => if Z.eq_dec j idx then v else b j.

(** [b[idx] += v] and [b[idx] -= v] *)
Definition add_at (b : buf) (idx : Z) (v : R) : buf := upd b idx (b idx + v).
Definition sub_at (b : buf) (idx : Z) (v : R) : buf := upd b idx (b idx - v).

(** 1 when the two indices coincide, 0 otherwise. *)
Definition hit (j idx : Z) : R := if Z.eq_dec j idx then 1 else 0.

(** The values taken by [i] in [for (i=0; i<n; i++)]. *)
Definition upto (n : Z) : list Z := map Z.of_nat (seq 0 (Z.to_nat n)).

(** The values taken by [j] in [for (j=-g; j<=g; j++)]. *)
Definition sym_range (g : Z) : list Z :=
  map (fun n => (- g + Z.of_nat n)%Z) (seq 0 (Z.to_nat (g + g + 1))).

(** Sum of the values of [f] over a list. *)
Definition sum_over {A : Type} (l : list A) (f : A -> R) : R :=
  fold_right (fun a acc => f a + acc) 0 l.
Arguments sum_over : simpl never.

(** ** [compute_ewald_reci] *)

(** What the call leaves behind: the returned energy, the gradient array
    (when one was passed) and the work array. *)
Record reci_state : Type := mk_reci_state {
  r_energy : R;
  r_gpos : option buf;
  r_work : buf
}.

(** The test [(j0==0)&&(j1==0)&(j2==0)]: the second connective is the
    bitwise one, applied to the 0/1 results of the two comparisons. *)
Definition skip_triple (j0 j1 j2 : Z) : bool :=
  (j0 =? 0)%Z
  && negb (Z.land (Z.b2z (j1 =? 0)%Z) (Z.b2z (j2 =? 0)%Z) =? 0)%Z.

(** The vector [k] of one iteration. *)
Definition wavevector (gvecs : buf) (j0 j1 j2 : Z) : vec3 :=
  (M_TWO_PI * (IZR j0 * gvecs 0%Z + IZR j1 * gvecs 3%Z + IZR j2 * gvecs 6%Z),
   M_TWO_PI * (IZR j0 * gvecs 1%Z + IZR j1 * gvecs 4%Z + IZR j2 * gvecs 7%Z),
   M_TWO_PI * (IZR j0 * gvecs 2%Z + IZR j1 * gvecs 5%Z + IZR j2 * gvecs 8%Z)).

(** The phase [x] of atom [i]. *)
Definition phase (k : vec3) (pos : buf) (i : Z) : R :=
  let '(k0, k1, k2) := k in
  k0 * pos (3 * i)%Z + k1 * pos (3 * i + 1)%Z + k2 * pos (3 * i + 2)%Z.

(** Body of the first loop over the atoms; the state is
    ([cosfac], [sinfac], [work]). *)
Definition structure_step (k : vec3) (pos charges : buf) (with_gpos : bool)
    (st : R * R * buf) (i : Z) : R * R * buf :=
  let '(cosfac, sinfac, work) := st in
  let x := phase k pos i in
  let c := charges i * cos x in
  let s := charges i * sin x in
  (cosfac + c, sinfac + s,
   if with_gpos
   then upd (upd work (2 * i)%Z (2 * c)) (2 * i + 1)%Z (-2 * s)
   else work).

(** Body of the second loop over the atoms. *)
Definition gradient_step (k : vec3) (c cosfac sinfac : R) (work : buf)
    (gpos : buf) (i : Z) : buf :=
  let '(k0, k1, k2) := k in
  let x := c * (cosfac * work (2 * i + 1)%Z + sinfac * work (2 * i)%Z) in
  add_at (add_at (add_at gpos (3 * i)%Z (k0 * x))
                 (3 * i + 1)%Z (k1 * x))
         (3 * i + 2)%Z (k2 * x).

(** Body of the innermost of the three loops over [j0], [j1], [j2]. *)
Definition reci_body (pos : buf) (natom : Z) (charges gvecs : buf)
    (volume alpha : R) (st : reci_state) (j : Z * Z * Z) : reci_state :=
  let '(j0, j1, j2) := j in
  if skip_triple j0 j1 j2 then st else
  let fac1 := M_TWO_PI / volume in
  let fac2 := 0.25 / alpha / alpha in
  let k := wavevector gvecs j0 j1 j2 in
  let '(k0, k1, k2) := k in
  let ksq := k0 * k0 + k1 * k1 + k2 * k2 in
  let with_gpos := match r_gpos st with Some _ => true | None => false end in
  let '(cosfac, sinfac, work) :=
    fold_left (structure_step k pos charges with_gpos) (upto natom)
              (0, 0, r_work st) in
  let c := fac1 * exp ((- ksq) * fac2) / ksq in
  {| r_energy := r_energy st + c * (cosfac * cosfac + sinfac * sinfac);
     r_gpos :=
       option_map
         (fun gpos =>
            fold_left (gradient_step k c cosfac sinfac work) (upto natom) gpos)
         (r_gpos st);
     r_work := work |}.

Definition compute_ewald_reci (pos : buf) (natom : Z) (charges gvecs : buf)
    (volume alpha : R) (gmax : ibuf) (gpos : option buf) (work : buf)
    : reci_state :=
  fold_left
    (fun st0 j0 =>
       fold_left
         (fun st1 j1 =>
            fold_left
              (fun st2 j2 =>
                 reci_body pos natom charges gvecs volume alpha st2
                           (j0, j1, j2))
              (sym_range (gmax 2%Z)) st1)
         (sym_range (gmax 1%Z)) st0)
    (sym_range (gmax 0%Z))
    {| r_energy := 0; r_gpos := gpos; r_work := work |}.

(** ** [compute_ewald_corr] *)

(** [scaling_row_type] of [pes/pair_pot.h]. *)
Record scaling_row_type : Type := mk_scaling_row {
  i : Z;
  scale : R
}.

(** The function [mic] of [mic.h], whose body is not available:
    [mic(delta, rvecs, gvecs, nvec)] overwrites [delta] with its
    minimum-image reduction.  It is a parameter of the embedding. *)
Definition mic_type : Type := vec3 -> buf -> buf -> Z -> vec3.

Record corr_state : Type := mk_corr_state {
  c_energy : R;
  c_gpos : option buf;
  c_vtens : option buf
}.

(** [delta] before and after the call of [mic] for the pair
    ([center_index], [other_index]). *)
Definition raw_delta (pos : buf) (center_index other_index : Z) : vec3 :=
  (pos (3 * center_index)%Z - pos (3 * other_index)%Z,
   pos (3 * center_index + 1)%Z - pos (3 * other_index + 1)%Z,
   pos (3 * center_index + 2)%Z - pos (3 * other_index + 2)%Z).

Definition pair_delta (mic : mic_type) (pos : buf)
    (center_index other_index : Z) (rvecs gvecs : buf) : vec3 :=
  mic (raw_delta pos center_index other_index) rvecs gvecs 3%Z.

(** The six updates of [gpos] for one pair. *)
Definition gpos_pair (center_index other_index : Z) (delta : vec3) (g : R)
    (gpos : buf) : buf :=
  let '(d0, d1, d2) := delta in
  sub_at (sub_at (sub_at
    (add_at (add_at (add_at gpos (3 * center_index)%Z (d0 * g))
                    (3 * center_index + 1)%Z (d1 * g))
            (3 * center_index + 2)%Z (d2 * g))
    (3 * other_index)%Z (d0 * g))
    (3 * other_index + 1)%Z (d1 * g))
    (3 * other_index + 2)%Z (d2 * g).

(** The nine updates of [vtens] for one pair. *)
Definition vtens_pair (delta : vec3) (g : R) (vtens : buf) : buf :=
  let '(d0, d1, d2) := delta in
  add_at (add_at (add_at (add_at (add_at (add_at (add_at (add_at (add_at vtens
    0%Z (d0 * d0 * g)) 1%Z (d1 * d0 * g)) 2%Z (d2 * d0 * g))
    3%Z (d0 * d1 * g)) 4%Z (d1 * d1 * g)) 5%Z (d2 * d1 * g))
    6%Z (d0 * d2 * g)) 7%Z (d1 * d2 * g)) 8%Z (d2 * d2 * g).

(** Body of the loop over the scaling rows. *)
Definition corr_body (mic : mic_type) (pos : buf) (center_index : Z)
    (charges rvecs gvecs : buf) (alpha : R)
    (st : corr_state) (row : scaling_row_type) : corr_state :=
  let other_index := i row in
  let s := scale row in
  if (other_index >=? center_index)%Z then st else
  let delta := pair_delta mic pos center_index other_index rvecs gvecs in
  let '(d0, d1, d2) := delta in
  let d := sqrt (d0 * d0 + d1 * d1 + d2 * d2) in
  let x := alpha * d in
  let pot := erf x / d in
  let fac := (1 - s) * charges other_index * charges center_index in
  let g := (- fac) * (M_TWO_DIV_SQRT_PI * alpha * exp ((- x) * x) - pot)
           / d / d in
  {| c_energy := c_energy st - fac * pot;
     c_gpos := option_map (gpos_pair center_index other_index delta g)
                          (c_gpos st);
     c_vtens := option_map (vtens_pair delta g) (c_vtens st) |}.

Definition compute_ewald_corr (mic : mic_type) (pos : buf) (center_index : Z)
    (charges rvecs gvecs : buf) (alpha : R)
    (scaling : list scaling_row_type)
    (gpos vtens : option buf) : corr_state :=
  fold_left (corr_body mic pos center_index charges rvecs gvecs alpha)
    scaling
    {| c_energy :=
         0 - alpha / M_SQRT_PI * charges center_index * charges center_index;
       c_gpos := gpos;
       c_vtens := vtens |}.

(** ** Closed forms of the quantities computed by the two routines *)

(** [ksq], [cosfac] and [sinfac] for the vector [k]. *)
Definition ksq_of (k : vec3) : R :=
  let '(k0, k1, k2) := k in k0 * k0 + k1 * k1 + k2 * k2.

Definition cosfac_of (k : vec3) (pos charges : buf) (natom : Z) : R :=
  sum_over (upto natom) (fun a => charges a * cos (phase k pos a)).

Definition sinfac_of (k : vec3) (pos charges : buf) (natom : Z) : R :=
  sum_over (upto natom) (fun a => charges a * sin (phase k pos a)).

(** The prefactor [c], as the code computes it. *)
Definition reci_coeff (volume alpha : R) (k : vec3) : R :=
  M_TWO_PI / volume * exp ((- ksq_of k) * (0.25 / alpha / alpha)) / ksq_of k.

(** The energy added for the vector [k]. *)
Definition reci_energy_term (pos : buf) (natom : Z) (charges : buf)
    (volume alpha : R) (k : vec3) : R :=
  reci_coeff volume alpha k
  * (cosfac_of k pos charges natom * cosfac_of k pos charges natom
     + sinfac_of k pos charges natom * sinfac_of k pos charges natom).

(** The scalar [x] of the second loop for atom [a] and vector [k]. *)
Definition atom_factor (pos : buf) (natom : Z) (charges : buf)
    (volume alpha : R) (k : vec3) (a : Z) : R :=
  reci_coeff volume alpha k
  * (cosfac_of k pos charges natom * (-2 * (charges a * sin (phase k pos a)))
     + sinfac_of k pos charges natom * (2 * (charges a * cos (phase k pos a)))).

(** The part of [k] that goes to element [idx] of [gpos] from atom [a]. *)
Definition axis_weight (k : vec3) (a idx : Z) : R :=
  let '(k0, k1, k2) := k in
  hit idx (3 * a)%Z * k0 + hit idx (3 * a + 1)%Z * k1
  + hit idx (3 * a + 2)%Z * k2.

(** [v[b]] for a local [double v[3]]. *)
Definition component (v : vec3) (b : Z) : R :=
  let '(v0, v1, v2) := v in
  if (b =? 0)%Z then v0 else if (b =? 1)%Z then v1
  else if (b =? 2)%Z then v2 else 0.

(** What the second loop adds to [gpos[idx]] for the vector [k]. *)
Definition reci_gpos_term (pos : buf) (natom : Z) (charges : buf)
    (volume alpha : R) (k : vec3) (idx : Z) : R :=
  sum_over (upto natom)
    (fun a => axis_weight k a idx * atom_factor pos natom charges volume alpha k a).

(** The triples visited by the three nested loops, in order. *)
Definition triples (gmax : ibuf) : list (Z * Z * Z) :=
  flat_map
    (fun j0 =>
       flat_map
         (fun j1 => map (fun j2 => (j0, j1, j2)) (sym_range (gmax 2%Z)))
         (sym_range (gmax 1%Z)))
    (sym_range (gmax 0%Z)).

(** The triples that are not skipped. *)
Definition skipped (j : Z * Z * Z) : bool :=
  let '(j0, j1, j2) := j in skip_triple j0 j1 j2.

Definition kept_triples (gmax : ibuf) : list (Z * Z * Z) :=
  filter (fun j => negb (skipped j)) (triples gmax).

Definition wavevector_of (gvecs : buf) (j : Z * Z * Z) : vec3 :=
  let '(j0, j1, j2) := j in wavevector gvecs j0 j1 j2.

(** The quantities [d], [fac], [pot] and [g] of one scaling row. *)
Definition norm3 (v : vec3) : R :=
  let '(v0, v1, v2) := v in sqrt (v0 * v0 + v1 * v1 + v2 * v2).

Section RowQuantities.
Variables (mic : mic_type) (pos : buf) (center_index : Z).
Variables (charges rvecs gvecs : buf) (alpha : R).

Definition row_delta (row : scaling_row_type) : vec3 :=
  pair_delta mic pos center_index (i row) rvecs gvecs.

Definition row_d (row : scaling_row_type) : R := norm3 (row_delta row).

Definition row_fac (row : scaling_row_type) : R :=
  (1 - scale row) * charges (i row) * charges center_index.

Definition row_pot (row : scaling_row_type) : R :=
  erf (alpha * row_d row) / row_d row.

Definition row_g (row : scaling_row_type) : R :=
  (- row_fac row)
  * (M_TWO_DIV_SQRT_PI * alpha * exp ((- (alpha * row_d row)) * (alpha * row_d row))
     - row_pot row)
  / row_d row / row_d row.

(** The rows that are not skipped. *)
Definition contributes (row : scaling_row_type) : bool :=
  negb (i row >=? center_index)%Z.

(** The loop over the scaling rows, restricted to each of the two arrays. *)
Definition row_gpos_step (gpos : buf) (row : scaling_row_type) : buf :=
  if contributes row
  then gpos_pair center_index (i row) (row_delta row) (row_g row) gpos
  else gpos.

Definition row_vtens_step (vtens : buf) (row : scaling_row_type) : buf :=
  if contributes row
  then vtens_pair (row_delta row) (row_g row) vtens
  else vtens.
End RowQuantities.

(** The weight with which [delta[0..2]·g] of the pair ([center_index],
    [other_index]) goes to element [m] of [gpos]. *)
Definition pair_weight (delta : vec3) (center_index other_index m : Z) : R :=
  let '(d0, d1, d2) := delta in
  (hit m (3 * center_index)%Z - hit m (3 * other_index)%Z) * d0
  + (hit m (3 * center_index + 1)%Z - hit m (3 * other_index + 1)%Z) * d1
  + (hit m (3 * center_index + 2)%Z - hit m (3 * other_index + 2)%Z) * d2.

(** The product of two components of [delta] that goes to element [m] of
    [vtens]. *)
Definition outer_weight (delta : vec3) (m : Z) : R :=
  let '(d0, d1, d2) := delta in
  hit m 0 * (d0 * d0) + hit m 1 * (d1 * d0) + hit m 2 * (d2 * d0)
  + hit m 3 * (d0 * d1) + hit m 4 * (d1 * d1) + hit m 5 * (d2 * d1)
  + hit m 6 * (d0 * d2) + hit m 7 * (d1 * d2) + hit m 8 * (d2 * d2).

(** The scalar product of two vectors. *)
Definition dot3 (k v : vec3) : R :=
  let '(k0, k1, k2) := k in
  let '(v0, v1, v2) := v in
  k0 * v0 + k1 * v1 + k2 * v2.

(** The positions after every atom is moved by [shift], and the positions
    and charges after the atoms are renumbered by [sigma] (atom [a] of the
    new arrays is atom [sigma a] of the old ones). *)
Definition translate (pos : buf) (shift : vec3) : buf :=
  fun m => pos m + component shift (m mod 3)%Z.

Definition permute_pos (sigma : Z -> Z) (pos : buf) : buf :=
  fun m => pos (3 * sigma (m / 3) + m mod 3)%Z.

Definition permute_charges (sigma : Z -> Z) (charges : buf) : buf :=
  fun a => charges (sigma a).

(** The exchange of atoms 0 and 1. *)
Definition swap01 (a : Z) : Z :=
  if (a =? 0)%Z then 1%Z else if (a =? 1)%Z then 0%Z else a.

(** Two optional arrays that are both absent, or both present with the
    same contents. *)
Definition same_contents (b b' : option buf) : Prop :=
  match b, b' with
  | Some f, Some f' => forall m : Z, f' m = f m
  | None, None => True
  | _, _ => False
  end.

(** [mic] acts as a fixed translation on the displacements close to
    [delta]: the periodic image chosen does not change. *)
Definition locally_translation (mic : mic_type) (rvecs gvecs : buf)
    (delta : vec3) : Prop :=
  exists (shift : vec3) (r : R),
    0 < r /\
    forall e0 e1 e2 : R,
      Rabs e0 < r -> Rabs e1 < r -> Rabs e2 < r ->
      let '(d0, d1, d2) := delta in
      let '(s0, s1, s2) := shift in
      mic (d0 + e0, d1 + e1, d2 + e2) rvecs gvecs 3%Z =
      (d0 + e0 + s0, d1 + e1 + s1, d2 + e2 + s2).

(** ** A small configuration for examples *)

(** Two atoms, at the origin and at (1/4, 0, 0); unit charges; the unit
    cubic cell; [gmax] = (1, 0, 0); zero-filled arrays; and a [mic] for a
    cell so large that no displacement is reduced. *)
Definition two_atoms_pos : buf := fun j => if (j =? 3)%Z then 1 / 4 else 0.
Definition unit_charges : buf := fun _ => 1.
Definition unit_cell : buf :=
  fun j => if ((j =? 0)%Z || (j =? 4)%Z || (j =? 8)%Z)%bool then 1 else 0.
Definition gmax_x1 : ibuf := fun j => if (j =? 0)%Z then 1%Z else 0%Z.
Definition zeros : buf := fun _ => 0.
Definition mic_none : mic_type := fun delta _ _ _ => delta.

(** ** Transformed inputs of further properties *)

(** Every charge multiplied by [lambda]. *)
Definition scale_charges (lambda : R) (charges : buf) : buf :=
  fun a => lambda * charges a.

(** The positions after the single atom [atom] is moved by [shift]. *)
Definition move_atom (pos : buf) (atom : Z) (shift : vec3) : buf :=
  fun m =>
    if (m / 3 =? atom)%Z then pos m + component shift (m mod 3)%Z else pos m.

(** Row [d] of the 3×3 array [gvecs]. *)
Definition gvecs_row (gvecs : buf) (d : Z) : vec3 :=
  (gvecs (3 * d)%Z, gvecs (3 * d + 1)%Z, gvecs (3 * d + 2)%Z).

(** The opposite vector. *)
Definition opp3 (v : vec3) : vec3 :=
  let '(v0, v1, v2) := v in (- v0, - v1, - v2).

(** The content of an array that was passed, 0 everywhere for one that was
    not. *)
Definition contents (b : option buf) (m : Z) : R :=
  match b with Some f => f m | None => 0 end.

(** ** The two energies in the words of the specification *)

(** Vectors: multiple, sum and difference. *)
Definition scale3 (c : R) (v : vec3) : vec3 :=
  let '(v0, v1, v2) := v in (c * v0, c * v1, c * v2).

Definition add3 (u v : vec3) : vec3 :=
  let '(u0, u1, u2) := u in
  let '(v0, v1, v2) := v in (u0 + v0, u1 + v1, u2 + v2).

Definition sub3 (u v : vec3) : vec3 :=
  let '(u0, u1, u2) := u in
  let '(v0, v1, v2) := v in (u0 - v0, u1 - v1, u2 - v2).

(** The position r_a of atom [a]: three consecutive elements of the flat
    array, atom after atom. *)
Definition atom_position (pos : buf) (a : Z) : vec3 :=
  (pos (3 * a)%Z, pos (3 * a + 1)%Z, pos (3 * a + 2)%Z).

(** The wavevector k = 2π·(j0·b0 + j1·b1 + j2·b2), with b0, b1, b2 the rows
    of the reciprocal cell. *)
Definition spec_wavevector (gvecs : buf) (j : Z * Z * Z) : vec3 :=
  let '(j0, j1, j2) := j in
  scale3 (2 * PI)
    (add3 (add3 (scale3 (IZR j0) (gvecs_row gvecs 0))
                (scale3 (IZR j1) (gvecs_row gvecs 1)))
          (scale3 (IZR j2) (gvecs_row gvecs 2))).

(** The term of the reciprocal sum as the specification writes it:
    (2π/V)·exp(−ksq/(4α²))/ksq · (cosfac² + sinfac²), with ksq = |k|²,
    cosfac = Σ_a q_a·cos(k·r_a) and sinfac = Σ_a q_a·sin(k·r_a). *)
Definition spec_reci_term (pos : buf) (natom : Z) (charges gvecs : buf)
    (volume alpha : R) (j : Z * Z * Z) : R :=
  let k := spec_wavevector gvecs j in
  let ksq := dot3 k k in
  let cosfac :=
    sum_over (upto natom)
      (fun a => charges a * cos (dot3 k (atom_position pos a))) in
  let sinfac :=
    sum_over (upto natom)
      (fun a => charges a * sin (dot3 k (atom_position pos a))) in
  (2 * PI / volume) * exp (- ksq / (4 * (alpha * alpha))) / ksq
  * (cosfac * cosfac + sinfac * sinfac).

(** The distance d of the specification: the length of the minimum-image
    displacement between the center atom and the other atom, [mic] being
    the minimum-image reduction. *)
Definition spec_distance (mic : mic_type) (pos rvecs gvecs : buf)
    (center other : Z) : R :=
  let delta :=
    mic (sub3 (atom_position pos center) (atom_position pos other))
        rvecs gvecs 3%Z in
  sqrt (dot3 delta delta).

(** ** The range of [long] *)

(** [LONG_MAX] of [limits.h] where [long] has 64 bits. *)
Definition LONG_MAX : Z := 9223372036854775807.

(** The three loop bounds are such that neither [-gmax[d]] nor the
    increment of the loop variable past [gmax[d]] leaves the range of
    [long]. *)
Definition loop_bounds_in_range (gmax : ibuf) : Prop :=
  forall d : Z, (0 <= d < 3)%Z -> (- LONG_MAX <= gmax d < LONG_MAX)%Z.

(** * Properties *)

(** ** The error function *)

(** The integral from 0 to y, split at a lower bound a of a window around
    the point of differentiation. *)
Lemma gauss_integral_split (a y : R) :
  RiemannInt (gauss_integrable 0 y) =
  RiemannInt (gauss_integrable 0 a) + RiemannInt (gauss_integrable a y).
Proof. symmetry. apply RiemannInt_P26. Qed.

Lemma derivable_pt_lim_local (f g : R -> R) (x l r : R) :
  0 < r ->
  (forall y, Rabs (y - x) < r -> f y = g y) ->
  derivable_pt_lim g x l -> derivable_pt_lim f x l.
Proof.
  intros Hr Hfg Hg eps Heps.
  destruct (Hg eps Heps) as [d Hd].
  assert (Hm : 0 < Rmin d r) by (apply Rmin_pos; [apply cond_pos | exact Hr]).
  exists (mkposreal _ Hm). intros h Hh0 Hh. simpl in Hh.
  rewrite (Hfg (x + h)), (Hfg x).
  - apply Hd; [exact Hh0 |].
    apply Rlt_le_trans with (1 := Hh). apply Rmin_l.
  - replace (x - x) with 0 by ring. rewrite Rabs_R0. exact Hr.
  - replace (x + h - x) with h by ring.
    apply Rlt_le_trans with (1 := Hh). apply Rmin_r.
Qed.

Lemma derivable_pt_lim_gauss_integral (x : R) :
  derivable_pt_lim (fun y => RiemannInt (gauss_integrable 0 y)) x (gauss x).
Proof.
  assert (Hab : x - 1 <= x + 1) by lra.
  pose (C0 := fun (z : R) (_ : x - 1 <= z <= x + 1) => gauss_continuity z).
  apply derivable_pt_lim_local with
    (g := fun y => RiemannInt (gauss_integrable 0 (x - 1))
                   + primitive Hab (FTC_P1 Hab C0) y) (r := 1).
  - lra.
  - intros y Hy. apply Rabs_def2 in Hy.
    rewrite (gauss_integral_split (x - 1) y). f_equal.
    unfold primitive.
    destruct (Rle_dec (x - 1) y) as [H1 | H1]; [| lra].
    destruct (Rle_dec y (x + 1)) as [H2 | H2]; [| lra].
    apply RiemannInt_P5.
  - replace (gauss x) with (0 + gauss x) by ring.
    apply derivable_pt_lim_plus.
    + apply derivable_pt_lim_const.
    + apply RiemannInt_P28. lra.
Qed.

Example erf_0 : erf 0 = 0.
Proof. unfold erf. rewrite RiemannInt_P9. ring. Qed.

(** The derivative of [erf] is 2/√π · exp(−x²). *)
Lemma derivable_pt_lim_erf (x : R) :
  derivable_pt_lim erf x (M_TWO_DIV_SQRT_PI * exp (- (x * x))).
Proof.
  unfold erf. apply derivable_pt_lim_scal.
  apply derivable_pt_lim_gauss_integral.
Qed.

(** ** Sums over lists *)

Section Sums.
Context {A : Type}.
Implicit Types (l : list A) (f g : A -> R).

Lemma sum_over_nil f : sum_over (@nil A) f = 0.
Proof. reflexivity. Qed.

Lemma sum_over_cons a l f : sum_over (a :: l) f = f a + sum_over l f.
Proof. reflexivity. Qed.

Lemma sum_over_app l1 l2 f :
  sum_over (l1 ++ l2) f = sum_over l1 f + sum_over l2 f.
Proof.
  induction l1 as [| a l1 IH].
  - rewrite sum_over_nil. simpl app. ring.
  - simpl app. rewrite !sum_over_cons, IH. ring.
Qed.

Lemma sum_over_ext_in l f g :
  (forall a, In a l -> f a = g a) -> sum_over l f = sum_over l g.
Proof.
  induction l as [| a l IH]; intros Hfg; [reflexivity |].
  rewrite !sum_over_cons, (Hfg a (or_introl eq_refl)), IH; [reflexivity |].
  intros b Hb. apply Hfg. now right.
Qed.

Lemma sum_over_plus l f g :
  sum_over l (fun a => f a + g a) = sum_over l f + sum_over l g.
Proof.
  induction l as [| a l IH]; [rewrite !sum_over_nil; ring |].
  rewrite !sum_over_cons, IH. ring.
Qed.

Lemma sum_over_scal l f (c : R) :
  sum_over l (fun a => c * f a) = c * sum_over l f.
Proof.
  induction l as [| a l IH]; [rewrite !sum_over_nil; ring |].
  rewrite !sum_over_cons, IH. ring.
Qed.

Lemma sum_over_zero l f :
  (forall a, In a l -> f a = 0) -> sum_over l f = 0.
Proof.
  induction l as [| a l IH]; intros H0; [reflexivity |].
  rewrite sum_over_cons, (H0 a (or_introl eq_refl)), IH; [ring |].
  intros b Hb. apply H0. now right.
Qed.

Lemma sum_over_perm l1 l2 f :
  Permutation l1 l2 -> sum_over l1 f = sum_over l2 f.
Proof.
  induction 1 as [| a l1 l2 _ IH | a b l | l1 l2 l3 _ IH1 _ IH2].
  - reflexivity.
  - rewrite !sum_over_cons, IH. reflexivity.
  - rewrite !sum_over_cons. ring.
  - now rewrite IH1.
Qed.

Lemma sum_over_filter l f (p : A -> bool) :
  sum_over (filter p l) f = sum_over l (fun a => if p a then f a else 0).
Proof.
  induction l as [| a l IH]; [reflexivity |].
  simpl. rewrite sum_over_cons. destruct (p a).
  - rewrite sum_over_cons, IH. reflexivity.
  - rewrite IH. ring.
Qed.
End Sums.

Lemma sum_over_map {A B : Type} (h : A -> B) (l : list A) (f : B -> R) :
  sum_over (map h l) f = sum_over l (fun a => f (h a)).
Proof.
  induction l as [| a l IH]; [reflexivity |].
  simpl. rewrite !sum_over_cons, IH. reflexivity.
Qed.

(** The sum of the derivatives is the derivative of the sum. *)
Lemma derivable_pt_lim_sum_over {A : Type} (l : list A)
    (F : A -> R -> R) (F' : A -> R) (x : R) :
  (forall a, In a l -> derivable_pt_lim (F a) x (F' a)) ->
  derivable_pt_lim (fun t => sum_over l (fun a => F a t)) x (sum_over l F').
Proof.
  induction l as [| a l IH]; intros HF.
  - apply derivable_pt_lim_const.
  - apply (derivable_pt_lim_plus (F a) (fun t => sum_over l (fun b => F b t))).
    + apply HF. now left.
    + apply IH. intros b Hb. apply HF. now right.
Qed.

Lemma fold_left_flat_map {A B S : Type} (f : S -> B -> S) (h : A -> list B)
    (l : list A) (s : S) :
  fold_left f (flat_map h l) s = fold_left (fun s' a => fold_left f (h a) s') l s.
Proof.
  revert s. induction l as [| a l IH]; intro s; [reflexivity |].
  simpl. rewrite fold_left_app. apply IH.
Qed.

Lemma fold_left_cons {A S : Type} (f : S -> A -> S) (a : A) (l : list A)
    (s : S) :
  fold_left f (a :: l) s = fold_left f l (f s a).
Proof. reflexivity. Qed.

Lemma fold_left_ext {A S : Type} (f g : S -> A -> S) (l : list A) (s : S) :
  (forall s' a, f s' a = g s' a) -> fold_left f l s = fold_left g l s.
Proof.
  intro Hfg. revert s. induction l as [| a l IH]; intro s; [reflexivity |].
  rewrite !fold_left_cons, Hfg. apply IH.
Qed.

Lemma fold_left_map {A B S : Type} (f : S -> B -> S) (h : A -> B)
    (l : list A) (s : S) :
  fold_left f (map h l) s = fold_left (fun s' a => f s' (h a)) l s.
Proof.
  revert s. induction l as [| a l IH]; intro s; [reflexivity | apply IH].
Qed.

(** ** Array updates *)

Lemma upd_same b idx v : upd b idx v idx = v.
Proof. unfold upd. destruct (Z.eq_dec idx idx); congruence. Qed.

Lemma upd_other b idx v j : j <> idx -> upd b idx v j = b j.
Proof. unfold upd. destruct (Z.eq_dec j idx); congruence. Qed.

Lemma add_at_eq b idx v j : add_at b idx v j = b j + hit j idx * v.
Proof.
  unfold add_at, upd, hit. destruct (Z.eq_dec j idx); [subst |]; ring.
Qed.

Lemma sub_at_eq b idx v j : sub_at b idx v j = b j - hit j idx * v.
Proof.
  unfold sub_at, upd, hit. destruct (Z.eq_dec j idx); [subst |]; ring.
Qed.

Lemma hit_same j : hit j j = 1.
Proof. unfold hit. destruct (Z.eq_dec j j); congruence. Qed.

Lemma hit_other j idx : j <> idx -> hit j idx = 0.
Proof. unfold hit. destruct (Z.eq_dec j idx); congruence. Qed.

Lemma In_upto n a : In a (upto n) <-> (0 <= a < n)%Z.
Proof.
  unfold upto. rewrite in_map_iff. split.
  - intros [m [<- Hm]]. apply in_seq in Hm. lia.
  - intros Ha. exists (Z.to_nat a). split; [lia |]. apply in_seq. lia.
Qed.

Lemma NoDup_upto n : NoDup (upto n).
Proof.
  unfold upto. apply Finite.Injective_map_NoDup.
  - intros a b. apply Nat2Z.inj.
  - apply seq_NoDup.
Qed.

Lemma In_sym_range g a : In a (sym_range g) <-> (- g <= a <= g)%Z.
Proof.
  unfold sym_range. rewrite in_map_iff. split.
  - intros [m [<- Hm]]. apply in_seq in Hm. lia.
  - intros Ha. exists (Z.to_nat (a + g)). split; [lia |]. apply in_seq. lia.
Qed.

Lemma NoDup_sym_range g : NoDup (sym_range g).
Proof.
  unfold sym_range. apply Finite.Injective_map_NoDup.
  - intros a b. lia.
  - apply seq_NoDup.
Qed.

Example sym_range_1 : sym_range 1 = [-1; 0; 1]%Z.
Proof. reflexivity. Qed.

Example sym_range_negative : sym_range (-1) = [].
Proof. reflexivity. Qed.

Example upto_3 : upto 3 = [0; 1; 2]%Z.
Proof. reflexivity. Qed.

Example upto_negative : upto (-2) = [].
Proof. reflexivity. Qed.

Example skip_triple_examples :
  skip_triple 0 0 0 = true /\ skip_triple 0 0 1 = false
  /\ skip_triple 0 1 0 = false /\ skip_triple 1 0 0 = false.
Proof. repeat split; reflexivity. Qed.

(** ** The loops of [compute_ewald_reci] *)

Section ReciLoops.
Variables (pos : buf) (natom : Z) (charges gvecs : buf) (volume alpha : R).

(** The first loop over the atoms adds up the two structure factors. *)
Lemma structure_fold_sums (k : vec3) (b : bool) (l : list Z) :
  forall (C S : R) (w : buf),
    fst (fold_left (structure_step k pos charges b) l (C, S, w)) =
    (C + sum_over l (fun a => charges a * cos (phase k pos a)),
     S + sum_over l (fun a => charges a * sin (phase k pos a))).
Proof.
  induction l as [| a l IH]; intros C S w.
  - simpl. rewrite !sum_over_nil. f_equal; ring.
  - rewrite fold_left_cons. unfold structure_step at 2. rewrite IH.
    rewrite !sum_over_cons. f_equal; ring.
Qed.

(** Elements of [work] that belong to no atom of the loop are kept. *)
Lemma structure_fold_work_kept (k : vec3) (b : bool) (l : list Z) (idx : Z) :
  (forall a, In a l -> idx <> (2 * a)%Z /\ idx <> (2 * a + 1)%Z) ->
  forall (C S : R) (w : buf),
    snd (fold_left (structure_step k pos charges b) l (C, S, w)) idx = w idx.
Proof.
  induction l as [| a l IH]; intros Hl C S w; [reflexivity |].
  rewrite fold_left_cons. unfold structure_step at 2. rewrite IH.
  - destruct (Hl a (or_introl eq_refl)) as [H0 H1].
    destruct b; [| reflexivity].
    rewrite upd_other by exact H1. now rewrite upd_other by exact H0.
  - intros a' Ha'. apply Hl. now right.
Qed.

(** With a gradient array, the first loop leaves 2·q·cos and −2·q·sin of
    every atom in [work]. *)
Lemma structure_fold_work (k : vec3) (l : list Z) (a : Z) :
  In a l ->
  forall (C S : R) (w : buf),
    let w' := snd (fold_left (structure_step k pos charges true) l (C, S, w)) in
    w' (2 * a)%Z = 2 * (charges a * cos (phase k pos a)) /\
    w' (2 * a + 1)%Z = -2 * (charges a * sin (phase k pos a)).
Proof.
  induction l as [| a0 l IH]; intros Ha C S w; [destruct Ha |].
  destruct (in_dec Z.eq_dec a l) as [Hin | Hnin].
  - rewrite fold_left_cons. unfold structure_step at 2. apply IH. exact Hin.
  - destruct Ha as [-> | Ha]; [| contradiction].
    cbv zeta. rewrite fold_left_cons. unfold structure_step at 2 4.
    rewrite !structure_fold_work_kept.
    + rewrite upd_same. rewrite upd_other by lia. rewrite upd_same.
      split; reflexivity.
    + intros a' Ha'. assert (a' <> a) by congruence. lia.
    + intros a' Ha'. assert (a' <> a) by congruence. lia.
Qed.

(** The second loop adds to every element of [gpos] what the atoms it
    belongs to contribute. *)
Lemma gradient_fold (k : vec3) (c C S : R) (w : buf) (l : list Z) (idx : Z) :
  forall g : buf,
    fold_left (gradient_step k c C S w) l g idx =
    g idx
    + sum_over l
        (fun a => axis_weight k a idx
                  * (c * (C * w (2 * a + 1)%Z + S * w (2 * a)%Z))).
Proof.
  destruct k as [[k0 k1] k2].
  induction l as [| a l IH]; intro g.
  - simpl. rewrite sum_over_nil. ring.
  - rewrite fold_left_cons. rewrite IH, sum_over_cons.
    unfold gradient_step, axis_weight. rewrite !add_at_eq. ring.
Qed.

Let body := reci_body pos natom charges gvecs volume alpha.
Let energy_term (j : Z * Z * Z) : R :=
  reci_energy_term pos natom charges volume alpha (wavevector_of gvecs j).
Let gpos_term (idx : Z) (j : Z * Z * Z) : R :=
  reci_gpos_term pos natom charges volume alpha (wavevector_of gvecs j) idx.

Lemma ksq_of_eq (k0 k1 k2 : R) :
  ksq_of (k0, k1, k2) = k0 * k0 + k1 * k1 + k2 * k2.
Proof. reflexivity. Qed.

(** One iteration of the innermost loop: the energy. *)
Lemma reci_body_energy (st : reci_state) (j : Z * Z * Z) :
  r_energy (body st j) =
  r_energy st + (if skipped j then 0 else energy_term j).
Proof.
  subst body energy_term. destruct j as [[j0 j1] j2].
  unfold reci_body, skipped, wavevector_of.
  destruct (skip_triple j0 j1 j2); [ring |].
  destruct (wavevector gvecs j0 j1 j2) as [[k0 k1] k2] eqn:Ek.
  match goal with
  | |- context [fold_left ?f ?l ?s0] =>
      pose proof (structure_fold_sums (k0, k1, k2)
                    (match r_gpos st with Some _ => true | None => false end)
                    (upto natom) 0 0 (r_work st)) as Hs;
      destruct (fold_left f l s0) as [[C S] w]
  end.
  pose proof (f_equal fst Hs) as HC. pose proof (f_equal snd Hs) as HS.
  cbn [fst snd] in HC, HS. cbn [r_energy].
  unfold reci_energy_term, reci_coeff, cosfac_of, sinfac_of.
  rewrite ksq_of_eq, HC, HS. ring.
Qed.

(** One iteration of the innermost loop: the gradient array. *)
Lemma reci_body_gpos_None (st : reci_state) (j : Z * Z * Z) :
  r_gpos st = None -> r_gpos (body st j) = None.
Proof.
  subst body. intros Hg. destruct j as [[j0 j1] j2]. unfold reci_body.
  destruct (skip_triple j0 j1 j2); [exact Hg |].
  destruct (wavevector gvecs j0 j1 j2) as [[k0 k1] k2].
  destruct (fold_left _ _ _) as [[C S] w]. cbn [r_gpos]. now rewrite Hg.
Qed.

Lemma reci_body_gpos_Some (st : reci_state) (j : Z * Z * Z) (g : buf) :
  r_gpos st = Some g ->
  exists g' : buf,
    r_gpos (body st j) = Some g' /\
    forall idx, g' idx = g idx + (if skipped j then 0 else gpos_term idx j).
Proof.
  subst body gpos_term. intros Hg. destruct j as [[j0 j1] j2].
  unfold reci_body, skipped, wavevector_of.
  destruct (skip_triple j0 j1 j2).
  { exists g. split; [exact Hg | intro; ring]. }
  destruct (wavevector gvecs j0 j1 j2) as [[k0 k1] k2] eqn:Ek.
  rewrite Hg.
  pose proof (structure_fold_sums (k0, k1, k2) true
                (upto natom) 0 0 (r_work st)) as Hs.
  pose proof (fun a Ha => structure_fold_work (k0, k1, k2) (upto natom) a Ha
                            0 0 (r_work st)) as Hw.
  cbv zeta in Hw.
  destruct (fold_left _ _ _) as [[C S] w].
  pose proof (f_equal fst Hs) as HC. pose proof (f_equal snd Hs) as HS.
  cbn [fst snd] in HC, HS, Hw. cbn [r_gpos option_map].
  eexists. split; [reflexivity |]. intro idx.
  rewrite gradient_fold. f_equal. unfold reci_gpos_term.
  apply sum_over_ext_in. intros a Ha.
  destruct (Hw a Ha) as [-> ->].
  unfold atom_factor, reci_coeff, cosfac_of, sinfac_of.
  rewrite ksq_of_eq, HC, HS. ring.
Qed.

(** Any sequence of iterations. *)
Lemma reci_fold_energy (l : list (Z * Z * Z)) :
  forall st : reci_state,
    r_energy (fold_left body l st) =
    r_energy st + sum_over l (fun j => if skipped j then 0 else energy_term j).
Proof.
  induction l as [| j l IH]; intro st.
  - simpl. rewrite sum_over_nil. ring.
  - rewrite fold_left_cons, IH, reci_body_energy, sum_over_cons. ring.
Qed.

Lemma reci_fold_gpos_None (l : list (Z * Z * Z)) :
  forall st : reci_state,
    r_gpos st = None -> r_gpos (fold_left body l st) = None.
Proof.
  induction l as [| j l IH]; intros st Hg; [exact Hg |].
  rewrite fold_left_cons. apply IH. now apply reci_body_gpos_None.
Qed.

Lemma reci_fold_gpos_Some (l : list (Z * Z * Z)) :
  forall (st : reci_state) (g : buf),
    r_gpos st = Some g ->
    exists g' : buf,
      r_gpos (fold_left body l st) = Some g' /\
      forall idx,
        g' idx =
        g idx + sum_over l (fun j => if skipped j then 0 else gpos_term idx j).
Proof.
  induction l as [| j l IH]; intros st g Hg.
  - exists g. split; [exact Hg |]. intro. rewrite sum_over_nil. ring.
  - rewrite fold_left_cons.
    destruct (reci_body_gpos_Some st j g Hg) as [g1 [Hg1 Hv1]].
    destruct (IH _ g1 Hg1) as [g' [Hg' Hv']].
    exists g'. split; [exact Hg' |]. intro idx.
    rewrite Hv', Hv1, sum_over_cons. ring.
Qed.

(** The three nested loops visit [triples gmax] in order. *)
Lemma compute_ewald_reci_fold (gmax : ibuf) (gpos : option buf) (work : buf) :
  compute_ewald_reci pos natom charges gvecs volume alpha gmax gpos work =
  fold_left body (triples gmax)
            {| r_energy := 0; r_gpos := gpos; r_work := work |}.
Proof.
  unfold compute_ewald_reci, triples.
  rewrite fold_left_flat_map. apply fold_left_ext. intros st0 j0.
  rewrite fold_left_flat_map. apply fold_left_ext. intros st1 j1.
  rewrite fold_left_map. reflexivity.
Qed.
End ReciLoops.

(** ** The triples of the reciprocal sum *)

Lemma skip_triple_true (j0 j1 j2 : Z) :
  skip_triple j0 j1 j2 = true <-> (j0 = 0 /\ j1 = 0 /\ j2 = 0)%Z.
Proof.
  unfold skip_triple.
  destruct (Z.eqb_spec j0 0), (Z.eqb_spec j1 0), (Z.eqb_spec j2 0);
    simpl; split; intros H; try discriminate; try reflexivity;
    try (repeat split; assumption); destruct H as [? [? ?]]; contradiction.
Qed.

Lemma NoDup_flat_map {A B : Type} (h : A -> list B) (l : list A) :
  NoDup l ->
  (forall a, In a l -> NoDup (h a)) ->
  (forall a b x, In a l -> In b l -> In x (h a) -> In x (h b) -> a = b) ->
  NoDup (flat_map h l).
Proof.
  induction 1 as [| a l Ha Hl IH]; intros Hh Hdisj; [constructor |].
  simpl. apply NoDup_app.
  - apply Hh. now left.
  - apply IH.
    + intros b Hb. apply Hh. now right.
    + intros b c x Hb Hc. apply Hdisj; now right.
  - intros x Hx Hx'. apply in_flat_map in Hx' as [b [Hb Hxb]].
    apply Ha. rewrite (Hdisj a b x); auto. now left. now right.
Qed.

Lemma In_triples (gmax : ibuf) (j0 j1 j2 : Z) :
  In (j0, j1, j2) (triples gmax) <->
  (- gmax 0 <= j0 <= gmax 0 /\ - gmax 1 <= j1 <= gmax 1
   /\ - gmax 2 <= j2 <= gmax 2)%Z.
Proof.
  unfold triples. rewrite in_flat_map. split.
  - intros [a [Ha Hin]]. apply in_flat_map in Hin as [b [Hb Hin]].
    apply in_map_iff in Hin as [c [Heq Hc]]. injection Heq as -> -> ->.
    apply In_sym_range in Ha, Hb, Hc. auto.
  - intros [H0 [H1 H2]]. exists j0. split; [now apply In_sym_range |].
    apply in_flat_map. exists j1. split; [now apply In_sym_range |].
    apply in_map_iff. exists j2. split; [reflexivity | now apply In_sym_range].
Qed.

Lemma NoDup_triples (gmax : ibuf) : NoDup (triples gmax).
Proof.
  unfold triples. apply NoDup_flat_map.
  - apply NoDup_sym_range.
  - intros j0 _. apply NoDup_flat_map.
    + apply NoDup_sym_range.
    + intros j1 _. apply Injective_map_NoDup; [| apply NoDup_sym_range].
      intros a b Hab. now injection Hab.
    + intros a b x _ _ Ha Hb.
      apply in_map_iff in Ha as [a' [<- _]].
      apply in_map_iff in Hb as [b' [Hb _]]. now injection Hb.
  - intros a b x _ _ Ha Hb.
    apply in_flat_map in Ha as [a1 [_ Ha]].
    apply in_map_iff in Ha as [a2 [<- _]].
    apply in_flat_map in Hb as [b1 [_ Hb]].
    apply in_map_iff in Hb as [b2 [Hb _]]. now injection Hb.
Qed.

Lemma In_kept_triples (gmax : ibuf) (j0 j1 j2 : Z) :
  In (j0, j1, j2) (kept_triples gmax) <->
  (Z.abs j0 <= gmax 0 /\ Z.abs j1 <= gmax 1 /\ Z.abs j2 <= gmax 2)%Z
  /\ (j0, j1, j2) <> (0, 0, 0)%Z.
Proof.
  unfold kept_triples. rewrite filter_In, In_triples. unfold skipped.
  rewrite Bool.negb_true_iff, <- Bool.not_true_iff_false, skip_triple_true.
  split; intros [Hr Hz]; (split; [lia |]).
  - intros Heq. injection Heq as -> -> ->. now apply Hz.
  - intros [-> [-> ->]]. now apply Hz.
Qed.

(** The vector [k] of the code is the wavevector of the specification, its
    [ksq] the square of its length, and the phase [x] its scalar product
    with the position of the atom. *)
Lemma spec_wavevector_eq (gvecs : buf) (j : Z * Z * Z) :
  spec_wavevector gvecs j = wavevector_of gvecs j.
Proof.
  destruct j as [[j0 j1] j2].
  cbv beta iota zeta delta
    [spec_wavevector wavevector_of wavevector gvecs_row scale3 add3 M_TWO_PI].
  cbn [Z.mul Z.add Pos.mul Pos.add Pos.succ].
  reflexivity.
Qed.

Lemma dot3_self (k : vec3) : dot3 k k = ksq_of k.
Proof. destruct k as [[k0 k1] k2]. reflexivity. Qed.

Lemma dot3_atom_position (k : vec3) (pos : buf) (a : Z) :
  dot3 k (atom_position pos a) = phase k pos a.
Proof. destruct k as [[k0 k1] k2]. reflexivity. Qed.

Lemma reci_energy_term_spec (pos : buf) (natom : Z) (charges gvecs : buf)
    (volume alpha : R) (j : Z * Z * Z) :
  alpha <> 0 ->
  reci_energy_term pos natom charges volume alpha (wavevector_of gvecs j) =
  spec_reci_term pos natom charges gvecs volume alpha j.
Proof.
  intro Ha. unfold spec_reci_term. cbv zeta.
  generalize (spec_wavevector_eq gvecs j).
  generalize (spec_wavevector gvecs j). intros ks ->.
  rewrite dot3_self.
  assert (HC : sum_over (upto natom)
                 (fun a => charges a
                           * cos (dot3 (wavevector_of gvecs j)
                                       (atom_position pos a)))
               = cosfac_of (wavevector_of gvecs j) pos charges natom)
    by (apply sum_over_ext_in; intros; now rewrite dot3_atom_position).
  assert (HS : sum_over (upto natom)
                 (fun a => charges a
                           * sin (dot3 (wavevector_of gvecs j)
                                       (atom_position pos a)))
               = sinfac_of (wavevector_of gvecs j) pos charges natom)
    by (apply sum_over_ext_in; intros; now rewrite dot3_atom_position).
  rewrite HC, HS.
  unfold reci_energy_term, reci_coeff, M_TWO_PI.
  replace ((- ksq_of (wavevector_of gvecs j)) * (0.25 / alpha / alpha))
    with (- ksq_of (wavevector_of gvecs j) / (4 * (alpha * alpha)))
    by (replace 0.25 with (1 / 4) by lra; field; exact Ha).
  reflexivity.
Qed.

(** The energy of any call, as a sum over the triples that are kept. *)
Lemma compute_ewald_reci_energy (pos : buf) (natom : Z) (charges gvecs : buf)
    (volume alpha : R) (gmax : ibuf) (gpos : option buf) (work : buf) :
  r_energy (compute_ewald_reci pos natom charges gvecs volume alpha gmax
                               gpos work) =
  sum_over (kept_triples gmax)
    (fun j => reci_energy_term pos natom charges volume alpha
                               (wavevector_of gvecs j)).
Proof.
  rewrite compute_ewald_reci_fold, reci_fold_energy. cbn [r_energy].
  unfold kept_triples. rewrite sum_over_filter, Rplus_0_l.
  apply sum_over_ext_in. intros j _. now destruct (skipped j).
Qed.

(** C1: for alpha > 0 the energy returned by [compute_ewald_reci] is the sum
    of (2π/V)·exp(−ksq/(4α²))/ksq·(cosfac² + sinfac²), where
    k = 2π·(j0·b0 + j1·b1 + j2·b2) with b0, b1, b2 the rows of [gvecs],
    ksq = |k|², cosfac = Σ q_a·cos(k·r_a) and sinfac = Σ q_a·sin(k·r_a) over
    the atoms 0 <= a < natom, each once.  The sum is over the list
    [kept_triples gmax], which holds every integer triple with
    |j_d| <= gmax[d] other than (0,0,0) exactly once; the zero triple is not
    in the list. *)
Theorem reci_energy_is_spec_sum (pos : buf) (natom : Z) (charges gvecs : buf)
    (volume alpha : R) (gmax : ibuf) (gpos : option buf) (work : buf) :
  0 < alpha ->
  NoDup (kept_triples gmax) /\
  (forall j0 j1 j2 : Z,
      In (j0, j1, j2) (kept_triples gmax) <->
      (Z.abs j0 <= gmax 0 /\ Z.abs j1 <= gmax 1 /\ Z.abs j2 <= gmax 2)%Z
      /\ (j0, j1, j2) <> (0, 0, 0)%Z) /\
  NoDup (upto natom) /\
  (forall a : Z, In a (upto natom) <-> (0 <= a < natom)%Z) /\
  r_energy (compute_ewald_reci pos natom charges gvecs volume alpha gmax
                               gpos work) =
  sum_over (kept_triples gmax)
           (spec_reci_term pos natom charges gvecs volume alpha).
Proof.
  intro Halpha. split; [| split; [| split; [| split]]].
  - apply NoDup_filter, NoDup_triples.
  - apply In_kept_triples.
  - apply NoDup_upto.
  - apply In_upto.
  - rewrite compute_ewald_reci_energy. apply sum_over_ext_in. intros j _.
    apply reci_energy_term_spec. lra.
Qed.

Lemma reci_energy_is_spec_sum_witness :
  0 < 1 /\
  r_energy (compute_ewald_reci two_atoms_pos 2 unit_charges unit_cell 1 1
                               gmax_x1 None zeros) =
  sum_over (kept_triples gmax_x1)
           (spec_reci_term two_atoms_pos 2 unit_charges unit_cell 1 1).
Proof.
  split; [lra |].
  apply (reci_energy_is_spec_sum two_atoms_pos 2 unit_charges unit_cell 1 1
                                 gmax_x1 None zeros).
  lra.
Defined.

(** ** The gradient of the reciprocal sum *)

Lemma sum_over_hit (l : list Z) (a : Z) (f : Z -> R) :
  NoDup l -> In a l -> sum_over l (fun a' => hit a' a * f a') = f a.
Proof.
  induction 1 as [| a0 l Ha0 Hl IH]; intros Ha; [destruct Ha |].
  rewrite sum_over_cons. destruct Ha as [-> | Ha].
  - rewrite hit_same, sum_over_zero; [ring |].
    intros a' Ha'. rewrite hit_other; [ring |]. congruence.
  - rewrite hit_other by congruence. rewrite IH by exact Ha. ring.
Qed.

Lemma axis_weight_atom (k : vec3) (a a' b : Z) :
  (0 <= b < 3)%Z ->
  axis_weight k a' (3 * a + b)%Z = hit a' a * component k b.
Proof.
  intro Hb. destruct k as [[k0 k1] k2]. unfold axis_weight, component, hit.
  destruct (Z.eq_dec a' a) as [-> | Hne].
  - destruct (Z.eqb_spec b 0) as [-> | H0];
      [| destruct (Z.eqb_spec b 1) as [-> | H1];
         [| destruct (Z.eqb_spec b 2) as [-> | H2]; [| lia]]];
      repeat match goal with
             | |- context [Z.eq_dec ?x ?y] => destruct (Z.eq_dec x y); try lia
             end; ring.
  - repeat match goal with
           | |- context [Z.eq_dec ?x ?y] => destruct (Z.eq_dec x y); try lia
           end; ring.
Qed.

Section ReciGradient.
Variables (pos : buf) (natom : Z) (charges gvecs : buf) (volume alpha : R).

(** For an element of [gpos] that belongs to an atom, only that atom
    contributes. *)
Lemma reci_gpos_term_atom (k : vec3) (a b : Z) :
  In a (upto natom) -> (0 <= b < 3)%Z ->
  reci_gpos_term pos natom charges volume alpha k (3 * a + b)%Z =
  component k b * atom_factor pos natom charges volume alpha k a.
Proof.
  intros Ha Hb. unfold reci_gpos_term.
  rewrite (sum_over_ext_in _ _
             (fun a' => hit a' a * (component k b
                * atom_factor pos natom charges volume alpha k a'))).
  - apply sum_over_hit; [apply NoDup_upto | exact Ha].
  - intros a' _. rewrite axis_weight_atom by exact Hb. ring.
Qed.

(** The factors [x] of the second loop add up to zero over the atoms. *)
Lemma atom_factor_sum_zero (k : vec3) :
  sum_over (upto natom) (atom_factor pos natom charges volume alpha k) = 0.
Proof.
  unfold atom_factor. rewrite sum_over_scal, sum_over_plus, !sum_over_scal.
  fold (sinfac_of k pos charges natom). fold (cosfac_of k pos charges natom).
  ring.
Qed.

Lemma reci_gpos_term_sum_zero (k : vec3) (b : Z) :
  (0 <= b < 3)%Z ->
  sum_over (upto natom)
    (fun a => reci_gpos_term pos natom charges volume alpha k (3 * a + b)%Z)
  = 0.
Proof.
  intro Hb.
  rewrite (sum_over_ext_in _ _
             (fun a => component k b
                       * atom_factor pos natom charges volume alpha k a)).
  - rewrite sum_over_scal, atom_factor_sum_zero. ring.
  - intros a Ha. now apply reci_gpos_term_atom.
Qed.

(** One iteration adds nothing in total along any axis. *)
Lemma reci_body_gpos_balance (e : R) (g w : buf) (j : Z * Z * Z) (b : Z) :
  (0 <= b < 3)%Z ->
  exists g' : buf,
    r_gpos (reci_body pos natom charges gvecs volume alpha
              {| r_energy := e; r_gpos := Some g; r_work := w |} j) = Some g' /\
    sum_over (upto natom) (fun a => g' (3 * a + b)%Z - g (3 * a + b)%Z) = 0.
Proof.
  intro Hb.
  destruct (reci_body_gpos_Some pos natom charges gvecs volume alpha
              {| r_energy := e; r_gpos := Some g; r_work := w |} j g eq_refl)
    as [g' [Hg' Hv]].
  exists g'. split; [exact Hg' |].
  rewrite (sum_over_ext_in _ _
             (fun a => if skipped j then 0
                       else reci_gpos_term pos natom charges volume alpha
                              (wavevector_of gvecs j) (3 * a + b)%Z)).
  - destruct (skipped j).
    + apply sum_over_zero. reflexivity.
    + now apply reci_gpos_term_sum_zero.
  - intros a _. rewrite Hv. ring.
Qed.

(** Any sequence of iterations adds nothing in total along any axis. *)
Lemma reci_fold_gpos_balance (l : list (Z * Z * Z)) (b : Z) :
  (0 <= b < 3)%Z ->
  forall (st : reci_state) (g : buf),
    r_gpos st = Some g ->
    exists g' : buf,
      r_gpos (fold_left (reci_body pos natom charges gvecs volume alpha) l st)
      = Some g' /\
      sum_over (upto natom) (fun a => g' (3 * a + b)%Z - g (3 * a + b)%Z) = 0.
Proof.
  intro Hb. induction l as [| j l IH]; intros st g Hg.
  - exists g. split; [exact Hg |]. apply sum_over_zero. intros; ring.
  - rewrite fold_left_cons. destruct st as [e g0 w]. cbn [r_gpos] in Hg.
    subst g0.
    destruct (reci_body_gpos_balance e g w j b Hb) as [g1 [Hg1 Hs1]].
    destruct (IH _ g1 Hg1) as [g' [Hg' Hs']].
    exists g'. split; [exact Hg' |].
    rewrite (sum_over_ext_in _ _
               (fun a => (g' (3 * a + b)%Z - g1 (3 * a + b)%Z)
                         + (g1 (3 * a + b)%Z - g (3 * a + b)%Z)))
      by (intros; ring).
    rewrite sum_over_plus, Hs', Hs1. ring.
Qed.
End ReciGradient.

(** C10: with a gradient array, what one iteration of [compute_ewald_reci]
    (one vector k) adds to the gradient sums to zero over the atoms along
    each axis, and so does what the whole call adds. *)
Theorem reci_gradient_sums_to_zero (pos : buf) (natom : Z)
    (charges gvecs : buf) (volume alpha : R) (gmax : ibuf) (g work : buf)
    (b : Z) :
  (0 <= b < 3)%Z ->
  (forall (e : R) (g0 w : buf) (j : Z * Z * Z),
      exists g1 : buf,
        r_gpos (reci_body pos natom charges gvecs volume alpha
                  {| r_energy := e; r_gpos := Some g0; r_work := w |} j)
        = Some g1 /\
        sum_over (upto natom) (fun a => g1 (3 * a + b)%Z - g0 (3 * a + b)%Z)
        = 0) /\
  exists g' : buf,
    r_gpos (compute_ewald_reci pos natom charges gvecs volume alpha gmax
                               (Some g) work) = Some g' /\
    sum_over (upto natom) (fun a => g' (3 * a + b)%Z - g (3 * a + b)%Z) = 0.
Proof.
  intro Hb. split.
  - intros e g0 w j. now apply reci_body_gpos_balance.
  - rewrite compute_ewald_reci_fold.
    now apply reci_fold_gpos_balance.
Qed.

Lemma reci_gradient_sums_to_zero_witness :
  (0 <= 0 < 3)%Z /\
  exists g' : buf,
    r_gpos (compute_ewald_reci two_atoms_pos 2 unit_charges unit_cell 1 1
                               gmax_x1 (Some zeros) zeros) = Some g' /\
    sum_over (upto 2) (fun a => g' (3 * a + 0)%Z - zeros (3 * a + 0)%Z) = 0.
Proof.
  split; [lia |].
  apply (reci_gradient_sums_to_zero two_atoms_pos 2 unit_charges unit_cell
           1 1 gmax_x1 zeros zeros 0).
  lia.
Defined.

(** ** The gradient of [compute_ewald_reci] is the derivative of its energy *)

Lemma derivable_pt_lim_eq (f g : R -> R) (x l l' : R) :
  (forall t, f t = g t) -> l = l' ->
  derivable_pt_lim g x l' -> derivable_pt_lim f x l.
Proof.
  intros Hfg -> Hg.
  apply derivable_pt_lim_local with (g := g) (r := 1); auto. lra.
Qed.

Lemma hit_sym (j idx : Z) : hit j idx = hit idx j.
Proof.
  unfold hit. destruct (Z.eq_dec j idx), (Z.eq_dec idx j); congruence.
Qed.

Lemma upd_self (b : buf) (idx m : Z) : upd b idx (b idx) m = b m.
Proof. unfold upd. destruct (Z.eq_dec m idx); congruence. Qed.

(** Element [m] of an array as a function of the value of element [idx]. *)
Lemma derivable_pt_lim_upd (b : buf) (idx m : Z) (x : R) :
  derivable_pt_lim (fun t => upd b idx t m) x (hit m idx).
Proof.
  unfold upd, hit. destruct (Z.eq_dec m idx).
  - apply derivable_pt_lim_id.
  - apply derivable_pt_lim_const.
Qed.

Lemma derivable_pt_lim_phase (k : vec3) (pos : buf) (idx a : Z) (x : R) :
  derivable_pt_lim (fun t => phase k (upd pos idx t) a) x
                   (axis_weight k a idx).
Proof.
  destruct k as [[k0 k1] k2]. unfold phase, axis_weight.
  rewrite !(hit_sym idx).
  repeat apply (derivable_pt_lim_plus _ _ _ _ _);
    rewrite Rmult_comm; apply derivable_pt_lim_scal, derivable_pt_lim_upd.
Qed.

Section ReciDerivative.
Variables (pos : buf) (natom : Z) (charges gvecs : buf) (volume alpha : R).
Variable idx : Z.

Lemma phase_upd_self (k : vec3) (a : Z) :
  phase k (upd pos idx (pos idx)) a = phase k pos a.
Proof. destruct k as [[k0 k1] k2]. unfold phase. now rewrite !upd_self. Qed.

Lemma derivable_pt_lim_cos_phase (k : vec3) (a : Z) :
  derivable_pt_lim (fun t => charges a * cos (phase k (upd pos idx t) a))
    (pos idx)
    (charges a * (- sin (phase k pos a) * axis_weight k a idx)).
Proof.
  apply derivable_pt_lim_scal.
  apply (derivable_pt_lim_comp (fun t => phase k (upd pos idx t) a) cos).
  - apply derivable_pt_lim_phase.
  - rewrite phase_upd_self. apply derivable_pt_lim_cos.
Qed.

Lemma derivable_pt_lim_sin_phase (k : vec3) (a : Z) :
  derivable_pt_lim (fun t => charges a * sin (phase k (upd pos idx t) a))
    (pos idx)
    (charges a * (cos (phase k pos a) * axis_weight k a idx)).
Proof.
  apply derivable_pt_lim_scal.
  apply (derivable_pt_lim_comp (fun t => phase k (upd pos idx t) a) sin).
  - apply derivable_pt_lim_phase.
  - rewrite phase_upd_self. apply derivable_pt_lim_sin.
Qed.

Lemma cosfac_of_upd_self (k : vec3) :
  cosfac_of k (upd pos idx (pos idx)) charges natom = cosfac_of k pos charges natom.
Proof.
  unfold cosfac_of. apply sum_over_ext_in. intros a _.
  now rewrite phase_upd_self.
Qed.

Lemma sinfac_of_upd_self (k : vec3) :
  sinfac_of k (upd pos idx (pos idx)) charges natom = sinfac_of k pos charges natom.
Proof.
  unfold sinfac_of. apply sum_over_ext_in. intros a _.
  now rewrite phase_upd_self.
Qed.

(** The energy of one vector k, as a function of one element of [pos], has
    as derivative what the second loop adds to that element of [gpos]. *)
Lemma derivable_pt_lim_reci_energy_term (k : vec3) :
  derivable_pt_lim
    (fun t => reci_energy_term (upd pos idx t) natom charges volume alpha k)
    (pos idx)
    (reci_gpos_term pos natom charges volume alpha k idx).
Proof.
  set (dC := sum_over (upto natom)
               (fun a => charges a
                         * (- sin (phase k pos a) * axis_weight k a idx))).
  set (dS := sum_over (upto natom)
               (fun a => charges a
                         * (cos (phase k pos a) * axis_weight k a idx))).
  assert (HC : derivable_pt_lim
                 (fun t => cosfac_of k (upd pos idx t) charges natom)
                 (pos idx) dC).
  { apply (derivable_pt_lim_sum_over (upto natom)
             (fun a t => charges a * cos (phase k (upd pos idx t) a))).
    intros a _. apply derivable_pt_lim_cos_phase. }
  assert (HS : derivable_pt_lim
                 (fun t => sinfac_of k (upd pos idx t) charges natom)
                 (pos idx) dS).
  { apply (derivable_pt_lim_sum_over (upto natom)
             (fun a t => charges a * sin (phase k (upd pos idx t) a))).
    intros a _. apply derivable_pt_lim_sin_phase. }
  pose proof (derivable_pt_lim_mult _ _ _ _ _ HC HC) as HCC.
  pose proof (derivable_pt_lim_mult _ _ _ _ _ HS HS) as HSS.
  pose proof (derivable_pt_lim_scal _ (reci_coeff volume alpha k) _ _
                (derivable_pt_lim_plus _ _ _ _ _ HCC HSS)) as HE.
  cbv beta in HE. rewrite cosfac_of_upd_self, sinfac_of_upd_self in HE.
  eapply derivable_pt_lim_eq; [| | exact HE].
  - intro t. reflexivity.
  - subst dC dS. unfold reci_gpos_term, atom_factor.
    set (c := reci_coeff volume alpha k).
    set (C := cosfac_of k pos charges natom).
    set (S := sinfac_of k pos charges natom).
    rewrite (sum_over_ext_in _ _
               (fun a =>
                  (2 * c * C)
                  * (charges a * (- sin (phase k pos a) * axis_weight k a idx))
                  + (2 * c * S)
                    * (charges a * (cos (phase k pos a) * axis_weight k a idx))))
      by (intros; ring).
    rewrite sum_over_plus, !sum_over_scal. ring.
Qed.

(** The energy of the whole call, as a function of one element of [pos]. *)
Lemma derivable_pt_lim_reci_energy (gmax : ibuf) (gpos : option buf)
    (work : buf) :
  derivable_pt_lim
    (fun t => r_energy (compute_ewald_reci (upd pos idx t) natom charges gvecs
                          volume alpha gmax gpos work))
    (pos idx)
    (sum_over (kept_triples gmax)
       (fun j => reci_gpos_term pos natom charges volume alpha
                   (wavevector_of gvecs j) idx)).
Proof.
  eapply derivable_pt_lim_eq;
    [intro t; apply compute_ewald_reci_energy | reflexivity |].
  apply (derivable_pt_lim_sum_over (kept_triples gmax)
           (fun j t => reci_energy_term (upd pos idx t) natom charges volume
                         alpha (wavevector_of gvecs j))).
  intros j _. apply derivable_pt_lim_reci_energy_term.
Qed.

(** What the whole call adds to one element of [gpos]. *)
Lemma compute_ewald_reci_gpos (gmax : ibuf) (g work : buf) :
  exists g' : buf,
    r_gpos (compute_ewald_reci pos natom charges gvecs volume alpha gmax
                               (Some g) work) = Some g' /\
    forall m,
      g' m = g m
             + sum_over (kept_triples gmax)
                 (fun j => reci_gpos_term pos natom charges volume alpha
                             (wavevector_of gvecs j) m).
Proof.
  rewrite compute_ewald_reci_fold.
  destruct (reci_fold_gpos_Some pos natom charges gvecs volume alpha
              (triples gmax)
              {| r_energy := 0; r_gpos := Some g; r_work := work |} g eq_refl)
    as [g' [Hg' Hv]].
  exists g'. split; [exact Hg' |]. intro m. rewrite Hv. f_equal.
  unfold kept_triples. rewrite sum_over_filter.
  apply sum_over_ext_in. intros j _. now destruct (skipped j).
Qed.
End ReciDerivative.

(** ** The loop of [compute_ewald_corr] *)

Lemma gpos_pair_eq (center_index other_index : Z) (delta : vec3) (g : R)
    (gpos : buf) (m : Z) :
  gpos_pair center_index other_index delta g gpos m =
  gpos m + pair_weight delta center_index other_index m * g.
Proof.
  destruct delta as [[d0 d1] d2]. unfold gpos_pair, pair_weight.
  rewrite !sub_at_eq, !add_at_eq. ring.
Qed.

Lemma vtens_pair_eq (delta : vec3) (g : R) (vtens : buf) (m : Z) :
  vtens_pair delta g vtens m = vtens m + outer_weight delta m * g.
Proof.
  destruct delta as [[d0 d1] d2]. unfold vtens_pair, outer_weight.
  rewrite !add_at_eq. ring.
Qed.

Lemma outer_weight_entry (delta : vec3) (a b : Z) :
  (0 <= a < 3)%Z -> (0 <= b < 3)%Z ->
  outer_weight delta (3 * a + b)%Z = component delta a * component delta b.
Proof.
  intros Ha Hb. destruct delta as [[d0 d1] d2].
  assert (Ha' : a = 0%Z \/ a = 1%Z \/ a = 2%Z) by lia.
  assert (Hb' : b = 0%Z \/ b = 1%Z \/ b = 2%Z) by lia.
  unfold outer_weight, component, hit.
  destruct Ha' as [-> | [-> | ->]], Hb' as [-> | [-> | ->]];
    cbn; ring.
Qed.

Section CorrLoop.
Variables (mic : mic_type) (pos : buf) (center_index : Z).
Variables (charges rvecs gvecs : buf) (alpha : R).

Let body := corr_body mic pos center_index charges rvecs gvecs alpha.
Let delta_of := row_delta mic pos center_index rvecs gvecs.
Let fac_of := row_fac center_index charges.
Let pot_of := row_pot mic pos center_index rvecs gvecs alpha.
Let g_of := row_g mic pos center_index charges rvecs gvecs alpha.
Let gpos_step := row_gpos_step mic pos center_index charges rvecs gvecs alpha.
Let vtens_step := row_vtens_step mic pos center_index charges rvecs gvecs alpha.
Let takes := contributes center_index.

(** One iteration, field by field. *)
Lemma corr_body_eq (st : corr_state) (row : scaling_row_type) :
  body st row =
  {| c_energy :=
       c_energy st - (if takes row then fac_of row * pot_of row else 0);
     c_gpos := option_map (fun g => gpos_step g row) (c_gpos st);
     c_vtens := option_map (fun v => vtens_step v row) (c_vtens st) |}.
Proof.
  subst body delta_of fac_of pot_of g_of gpos_step vtens_step takes.
  unfold corr_body, row_gpos_step, row_vtens_step, contributes.
  destruct (i row >=? center_index)%Z; cbn [negb].
  - destruct st as [e g v]. cbn [c_energy c_gpos c_vtens]. f_equal.
    + ring.
    + now destruct g.
    + now destruct v.
  - unfold row_g, row_pot, row_fac, row_d, row_delta.
    destruct (pair_delta mic pos center_index (i row) rvecs gvecs)
      as [[d0 d1] d2].
    reflexivity.
Qed.

Lemma corr_skip (st : corr_state) (row : scaling_row_type) :
  takes row = false -> body st row = st.
Proof.
  subst body takes. unfold contributes, corr_body.
  now destruct (i row >=? center_index)%Z.
Qed.

Lemma corr_fold_energy (l : list scaling_row_type) :
  forall st : corr_state,
    c_energy (fold_left body l st) =
    c_energy st
    - sum_over l (fun row => if takes row then fac_of row * pot_of row else 0).
Proof.
  induction l as [| row l IH]; intro st.
  - cbn [fold_left]. rewrite sum_over_nil. ring.
  - rewrite fold_left_cons, IH, corr_body_eq, sum_over_cons.
    cbn [c_energy]. ring.
Qed.

Lemma corr_fold_gpos (l : list scaling_row_type) :
  forall st : corr_state,
    c_gpos (fold_left body l st) =
    option_map (fun g => fold_left gpos_step l g) (c_gpos st).
Proof.
  induction l as [| row l IH]; intro st.
  - cbn [fold_left]. now destruct (c_gpos st).
  - rewrite fold_left_cons, IH, corr_body_eq. cbn [c_gpos].
    now destruct (c_gpos st).
Qed.

Lemma corr_fold_vtens (l : list scaling_row_type) :
  forall st : corr_state,
    c_vtens (fold_left body l st) =
    option_map (fun v => fold_left vtens_step l v) (c_vtens st).
Proof.
  induction l as [| row l IH]; intro st.
  - cbn [fold_left]. now destruct (c_vtens st).
  - rewrite fold_left_cons, IH, corr_body_eq. cbn [c_vtens].
    now destruct (c_vtens st).
Qed.

(** What the loop adds to one element of [gpos] and of [vtens]. *)
Lemma gpos_step_fold (l : list scaling_row_type) (m : Z) :
  forall g : buf,
    fold_left gpos_step l g m =
    g m
    + sum_over l
        (fun row =>
           if takes row
           then pair_weight (delta_of row) center_index (i row) m * g_of row
           else 0).
Proof.
  induction l as [| row l IH]; intro g.
  - cbn [fold_left]. rewrite sum_over_nil. ring.
  - rewrite fold_left_cons, IH, sum_over_cons.
    subst gpos_step takes delta_of g_of. unfold row_gpos_step.
    destruct (contributes center_index row).
    + rewrite gpos_pair_eq. ring.
    + ring.
Qed.

Lemma vtens_step_fold (l : list scaling_row_type) (m : Z) :
  forall v : buf,
    fold_left vtens_step l v m =
    v m
    + sum_over l
        (fun row =>
           if takes row then outer_weight (delta_of row) m * g_of row else 0).
Proof.
  induction l as [| row l IH]; intro v.
  - cbn [fold_left]. rewrite sum_over_nil. ring.
  - rewrite fold_left_cons, IH, sum_over_cons.
    subst vtens_step takes delta_of g_of. unfold row_vtens_step.
    destruct (contributes center_index row).
    + rewrite vtens_pair_eq. ring.
    + ring.
Qed.
End CorrLoop.

Lemma fold_left_filter_skip {A S : Type} (f : S -> A -> S) (p : A -> bool)
    (l : list A) :
  (forall s a, p a = false -> f s a = s) ->
  forall s, fold_left f (filter p l) s = fold_left f l s.
Proof.
  intro Hskip. induction l as [| a l IH]; intro s; [reflexivity |].
  cbn [filter]. destruct (p a) eqn:Hp.
  - rewrite !fold_left_cons. apply IH.
  - rewrite fold_left_cons, (Hskip s a Hp). apply IH.
Qed.

Lemma contributes_ltb (center_index : Z) (row : scaling_row_type) :
  contributes center_index row = (i row <? center_index)%Z.
Proof. unfold contributes. now rewrite Z.geb_leb, Z.ltb_antisym. Qed.

Lemma contributes_lt (center_index : Z) (row : scaling_row_type) :
  (i row < center_index)%Z -> contributes center_index row = true.
Proof. intro H. rewrite contributes_ltb. now apply Z.ltb_lt. Qed.

(** ** Energy of [compute_ewald_corr] *)

(** The displacement and the distance of the code are those of the
    specification. *)
Lemma raw_delta_spec (pos : buf) (center_index other_index : Z) :
  raw_delta pos center_index other_index =
  sub3 (atom_position pos center_index) (atom_position pos other_index).
Proof. reflexivity. Qed.

Lemma norm3_spec (v : vec3) : norm3 v = sqrt (dot3 v v).
Proof. destruct v as [[v0 v1] v2]. reflexivity. Qed.

Lemma row_d_spec (mic : mic_type) (pos : buf) (center_index : Z)
    (rvecs gvecs : buf) (row : scaling_row_type) :
  row_d mic pos center_index rvecs gvecs row =
  spec_distance mic pos rvecs gvecs center_index (i row).
Proof.
  unfold row_d, row_delta, pair_delta, spec_distance.
  now rewrite norm3_spec, raw_delta_spec.
Qed.

(** C2: the energy returned by [compute_ewald_corr] is the self term plus,
    for exactly the rows with [i < center_index], the term
    −(1−scale)·q_center·q_other·erf(α·d)/d, with d the length
    sqrt(delta·delta) of delta = mic(r_center − r_other), the
    minimum-image displacement between the two atoms; the rows with
    [i >= center_index] leave energy, gradient and virial as they are, so
    the call gives the same result as on the list without them. *)
Theorem corr_energy_is_half_list_sum (mic : mic_type) (pos : buf)
    (center_index : Z) (charges rvecs gvecs : buf) (alpha : R)
    (scaling : list scaling_row_type) (gpos vtens : option buf) :
  c_energy (compute_ewald_corr mic pos center_index charges rvecs gvecs alpha
                               scaling gpos vtens) =
  (0 - alpha / M_SQRT_PI * charges center_index * charges center_index)
  + sum_over (filter (fun row => (i row <? center_index)%Z) scaling)
      (fun row =>
         let delta :=
           mic (sub3 (atom_position pos center_index)
                     (atom_position pos (i row))) rvecs gvecs 3%Z in
         let d := sqrt (dot3 delta delta) in
         - (1 - scale row) * charges center_index * charges (i row)
         * erf (alpha * d) / d)
  /\ compute_ewald_corr mic pos center_index charges rvecs gvecs alpha
       scaling gpos vtens =
     compute_ewald_corr mic pos center_index charges rvecs gvecs alpha
       (filter (fun row => (i row <? center_index)%Z) scaling) gpos vtens
  /\ forall (st : corr_state) (row : scaling_row_type),
       (i row >= center_index)%Z ->
       corr_body mic pos center_index charges rvecs gvecs alpha st row = st.
Proof.
  split; [| split].
  - unfold compute_ewald_corr. rewrite corr_fold_energy. cbn [c_energy].
    rewrite sum_over_filter.
    match goal with
    | |- _ - ?A = _ + ?B => assert (HB : B = -1 * A); [| rewrite HB; ring]
    end.
    rewrite <- sum_over_scal. apply sum_over_ext_in. intros row _.
    rewrite contributes_ltb.
    destruct (i row <? center_index)%Z; [| ring].
    unfold row_fac, row_pot. rewrite row_d_spec. unfold spec_distance.
    cbv zeta. unfold Rdiv. ring.
  - unfold compute_ewald_corr. symmetry.
    apply fold_left_filter_skip. intros st row Hrow.
    apply corr_skip. now rewrite contributes_ltb.
  - intros st row Hrow. apply corr_skip. rewrite contributes_ltb.
    apply Z.ltb_ge. lia.
Qed.

(** C4: the self term is −α/√π·q_center², added once to the energy and to
    nothing else: the call returns that plus the energy of the loop run from
    zero, with the arrays the loop alone produces; with no scaling rows it
    returns exactly −α/√π·q_center² and the arrays it was given. *)
Theorem corr_self_term (mic : mic_type) (pos : buf) (center_index : Z)
    (charges rvecs gvecs : buf) (alpha : R)
    (scaling : list scaling_row_type) (gpos vtens : option buf) :
  let self := - (alpha / sqrt PI * charges center_index ^ 2) in
  let loop :=
    fold_left (corr_body mic pos center_index charges rvecs gvecs alpha)
      scaling {| c_energy := 0; c_gpos := gpos; c_vtens := vtens |} in
  let call := compute_ewald_corr mic pos center_index charges rvecs gvecs
                alpha scaling gpos vtens in
  c_energy call = self + c_energy loop
  /\ c_gpos call = c_gpos loop
  /\ c_vtens call = c_vtens loop
  /\ compute_ewald_corr mic pos center_index charges rvecs gvecs alpha
       [] gpos vtens =
     {| c_energy := self; c_gpos := gpos; c_vtens := vtens |}.
Proof.
  cbv zeta. unfold compute_ewald_corr. repeat split.
  - rewrite !corr_fold_energy. cbn [c_energy]. unfold M_SQRT_PI. ring.
  - now rewrite !corr_fold_gpos.
  - now rewrite !corr_fold_vtens.
  - cbn [fold_left]. f_equal. unfold M_SQRT_PI. ring.
Qed.

(** ** Gradient and virial of one pair *)

Ltac decide_hits :=
  unfold hit;
  repeat match goal with
         | |- context [Z.eq_dec ?x ?y] => destruct (Z.eq_dec x y); try lia
         end.

Lemma pair_weight_center (delta : vec3) (center_index other_index b : Z) :
  (other_index < center_index)%Z -> (0 <= b < 3)%Z ->
  pair_weight delta center_index other_index (3 * center_index + b)%Z =
  component delta b.
Proof.
  intros Hlt Hb. destruct delta as [[d0 d1] d2].
  assert (Hb' : b = 0%Z \/ b = 1%Z \/ b = 2%Z) by lia.
  unfold pair_weight, component.
  destruct Hb' as [-> | [-> | ->]]; cbn [Z.eqb Pos.eqb]; decide_hits; ring.
Qed.

Lemma pair_weight_other (delta : vec3) (center_index other_index b : Z) :
  (other_index < center_index)%Z -> (0 <= b < 3)%Z ->
  pair_weight delta center_index other_index (3 * other_index + b)%Z =
  - component delta b.
Proof.
  intros Hlt Hb. destruct delta as [[d0 d1] d2].
  assert (Hb' : b = 0%Z \/ b = 1%Z \/ b = 2%Z) by lia.
  unfold pair_weight, component.
  destruct Hb' as [-> | [-> | ->]]; cbn [Z.eqb Pos.eqb]; decide_hits; ring.
Qed.

(** C5: for a row that contributes ([i < center_index]) and a gradient
    array, the loop body adds [delta[b]·g] to component b of the center
    atom's entry and subtracts the same [delta[b]·g] from component b of the
    other atom's entry: the two added vectors are exact negations. *)
Theorem corr_gradient_pair_opposite (mic : mic_type) (pos : buf)
    (center_index : Z) (charges rvecs gvecs : buf) (alpha : R)
    (e : R) (gpos : buf) (vtens : option buf) (row : scaling_row_type) :
  (i row < center_index)%Z ->
  let delta := row_delta mic pos center_index rvecs gvecs row in
  let g := row_g mic pos center_index charges rvecs gvecs alpha row in
  exists gpos' : buf,
    c_gpos (corr_body mic pos center_index charges rvecs gvecs alpha
              {| c_energy := e; c_gpos := Some gpos; c_vtens := vtens |} row)
    = Some gpos' /\
    forall b : Z,
      (0 <= b < 3)%Z ->
      gpos' (3 * center_index + b)%Z - gpos (3 * center_index + b)%Z
      = component delta b * g
      /\ gpos' (3 * i row + b)%Z - gpos (3 * i row + b)%Z
         = - (component delta b * g)
      /\ gpos' (3 * center_index + b)%Z - gpos (3 * center_index + b)%Z
         = - (gpos' (3 * i row + b)%Z - gpos (3 * i row + b)%Z).
Proof.
  intros Hlt delta g. rewrite corr_body_eq. cbn [c_gpos option_map].
  eexists. split; [reflexivity |]. intros b Hb.
  unfold row_gpos_step. rewrite (contributes_lt _ _ Hlt), !gpos_pair_eq.
  fold delta. fold g.
  rewrite (pair_weight_center delta _ _ b Hlt Hb).
  rewrite (pair_weight_other delta _ _ b Hlt Hb).
  repeat split; ring.
Qed.

Lemma corr_gradient_pair_opposite_witness :
  (0 < 1)%Z /\
  exists gpos' : buf,
    c_gpos (corr_body mic_none two_atoms_pos 1 unit_charges unit_cell
              unit_cell 1
              {| c_energy := 0; c_gpos := Some zeros; c_vtens := None |}
              {| i := 0; scale := 0 |})
    = Some gpos' /\
    forall b : Z,
      (0 <= b < 3)%Z ->
      gpos' (3 * 1 + b)%Z - zeros (3 * 1 + b)%Z
      = - (gpos' (3 * 0 + b)%Z - zeros (3 * 0 + b)%Z).
Proof.
  split; [lia |].
  destruct (corr_gradient_pair_opposite mic_none two_atoms_pos 1 unit_charges
              unit_cell unit_cell 1 0 zeros None {| i := 0; scale := 0 |})
    as [gpos' [Hg Hb]]; [cbn; lia |].
  exists gpos'. split; [exact Hg |].
  intros b Hr. exact (proj2 (proj2 (Hb b Hr))).
Defined.

(** C9: for a row that contributes and a virial array, the loop body adds
    [delta[a]·delta[b]·g] to entry (a,b), which is what it adds to entry
    (b,a); so a virial that is symmetric before the call is symmetric after
    it. *)
Theorem corr_virial_symmetric (mic : mic_type) (pos : buf)
    (center_index : Z) (charges rvecs gvecs : buf) (alpha : R)
    (scaling : list scaling_row_type) (gpos : option buf) (vtens : buf) :
  (forall (e : R) (v : buf) (row : scaling_row_type),
      (i row < center_index)%Z ->
      let delta := row_delta mic pos center_index rvecs gvecs row in
      let g := row_g mic pos center_index charges rvecs gvecs alpha row in
      exists v' : buf,
        c_vtens (corr_body mic pos center_index charges rvecs gvecs alpha
                   {| c_energy := e; c_gpos := gpos; c_vtens := Some v |} row)
        = Some v' /\
        forall a b : Z,
          (0 <= a < 3)%Z -> (0 <= b < 3)%Z ->
          v' (3 * a + b)%Z - v (3 * a + b)%Z
          = component delta a * component delta b * g
          /\ v' (3 * a + b)%Z - v (3 * a + b)%Z
             = v' (3 * b + a)%Z - v (3 * b + a)%Z)
  /\ ((forall a b : Z,
          (0 <= a < 3)%Z -> (0 <= b < 3)%Z ->
          vtens (3 * a + b)%Z = vtens (3 * b + a)%Z) ->
      exists vtens' : buf,
        c_vtens (compute_ewald_corr mic pos center_index charges rvecs gvecs
                   alpha scaling gpos (Some vtens)) = Some vtens' /\
        forall a b : Z,
          (0 <= a < 3)%Z -> (0 <= b < 3)%Z ->
          vtens' (3 * a + b)%Z = vtens' (3 * b + a)%Z).
Proof.
  split; [| intro Hsym].
  - intros e v row Hlt delta g. rewrite corr_body_eq.
    cbn [c_vtens option_map]. eexists. split; [reflexivity |].
    intros a b Ha Hb. unfold row_vtens_step.
    rewrite (contributes_lt _ _ Hlt), !vtens_pair_eq.
    fold delta. fold g.
    rewrite (outer_weight_entry delta a b Ha Hb).
    rewrite (outer_weight_entry delta b a Hb Ha).
    split; ring.
  - unfold compute_ewald_corr. rewrite corr_fold_vtens.
    cbn [c_vtens option_map]. eexists. split; [reflexivity |].
    intros a b Ha Hb. rewrite !vtens_step_fold, (Hsym a b Ha Hb). f_equal.
    apply sum_over_ext_in. intros row _.
    destruct (contributes center_index row); [| reflexivity].
    rewrite (outer_weight_entry _ a b Ha Hb).
    rewrite (outer_weight_entry _ b a Hb Ha). ring.
Qed.

Lemma corr_virial_symmetric_witness :
  exists vtens' : buf,
    c_vtens (compute_ewald_corr mic_none two_atoms_pos 1 unit_charges
               unit_cell unit_cell 1 [{| i := 0; scale := 0 |}] None
               (Some zeros)) = Some vtens' /\
    forall a b : Z,
      (0 <= a < 3)%Z -> (0 <= b < 3)%Z ->
      vtens' (3 * a + b)%Z = vtens' (3 * b + a)%Z.
Proof.
  apply (proj2 (corr_virial_symmetric mic_none two_atoms_pos 1 unit_charges
                  unit_cell unit_cell 1 [{| i := 0; scale := 0 |}] None
                  zeros)).
  intros a b _ _. reflexivity.
Defined.

(** C7: when every scaling row has [scale = 1], and the two atoms of every
    contributing row are at a non-zero distance, the call returns the self
    term alone and leaves every element of the gradient and virial arrays
    as it was. *)
Theorem corr_scale_one_is_self_only (mic : mic_type) (pos : buf)
    (center_index : Z) (charges rvecs gvecs : buf) (alpha : R)
    (scaling : list scaling_row_type) (gpos vtens : option buf) :
  Forall (fun row => scale row = 1) scaling ->
  (forall row, In row scaling -> (i row < center_index)%Z ->
     row_d mic pos center_index rvecs gvecs row <> 0) ->
  let call := compute_ewald_corr mic pos center_index charges rvecs gvecs
                alpha scaling gpos vtens in
  c_energy call = - (alpha / sqrt PI * charges center_index ^ 2)
  /\ same_contents gpos (c_gpos call)
  /\ same_contents vtens (c_vtens call).
Proof.
  intros Hone _ call. subst call. unfold compute_ewald_corr.
  rewrite Forall_forall in Hone.
  assert (Hfac : forall row, In row scaling ->
                             row_fac center_index charges row = 0).
  { intros row Hrow. unfold row_fac. rewrite (Hone row Hrow). ring. }
  assert (Hg : forall row, In row scaling ->
                 row_g mic pos center_index charges rvecs gvecs alpha row = 0).
  { intros row Hrow. unfold row_g. rewrite (Hfac row Hrow).
    unfold Rdiv. ring. }
  split; [| split].
  - rewrite corr_fold_energy. cbn [c_energy].
    rewrite sum_over_zero.
    + unfold M_SQRT_PI. ring.
    + intros row Hrow. rewrite (Hfac row Hrow).
      destruct (contributes center_index row); ring.
  - rewrite corr_fold_gpos. cbn [c_gpos].
    destruct gpos as [g |]; cbn [option_map same_contents]; [| exact I].
    intro m. rewrite gpos_step_fold, sum_over_zero; [ring |].
    intros row Hrow. rewrite (Hg row Hrow).
    destruct (contributes center_index row); ring.
  - rewrite corr_fold_vtens. cbn [c_vtens].
    destruct vtens as [v |]; cbn [option_map same_contents]; [| exact I].
    intro m. rewrite vtens_step_fold, sum_over_zero; [ring |].
    intros row Hrow. rewrite (Hg row Hrow).
    destruct (contributes center_index row); ring.
Qed.

(** The two atoms of the example are at distance 1/4. *)
Lemma two_atoms_row_distance (s : R) :
  row_d mic_none two_atoms_pos 1 unit_cell unit_cell {| i := 0; scale := s |}
  = 1 / 4.
Proof.
  unfold row_d, row_delta, pair_delta, raw_delta, mic_none, norm3,
    two_atoms_pos. cbn [i Z.mul Z.add Z.eqb Pos.mul Pos.add Pos.eqb].
  replace ((1 / 4 - 0) * (1 / 4 - 0) + (0 - 0) * (0 - 0) + (0 - 0) * (0 - 0))
    with (Rsqr (1 / 4)) by (unfold Rsqr; lra).
  apply sqrt_Rsqr. lra.
Qed.

Lemma corr_scale_one_is_self_only_witness :
  Forall (fun row => scale row = 1) [{| i := 0; scale := 1 |}] /\
  row_d mic_none two_atoms_pos 1 unit_cell unit_cell {| i := 0; scale := 1 |}
  <> 0 /\
  c_energy (compute_ewald_corr mic_none two_atoms_pos 1 unit_charges
              unit_cell unit_cell 1 [{| i := 0; scale := 1 |}]
              (Some zeros) (Some zeros))
  = - (1 / sqrt PI * unit_charges 1%Z ^ 2).
Proof.
  assert (H : Forall (fun row => scale row = 1) [{| i := 0; scale := 1 |}])
    by (constructor; [reflexivity | constructor]).
  assert (Hd : row_d mic_none two_atoms_pos 1 unit_cell unit_cell
                 {| i := 0; scale := 1 |} <> 0)
    by (rewrite two_atoms_row_distance; lra).
  split; [exact H |]. split; [exact Hd |].
  apply (corr_scale_one_is_self_only mic_none two_atoms_pos 1 unit_charges
           unit_cell unit_cell 1 [{| i := 0; scale := 1 |}]
           (Some zeros) (Some zeros) H).
  intros row [<- | []] _. exact Hd.
Defined.

(** ** Invariance of the reciprocal energy *)

Lemma atom_index_mod (a b : Z) :
  (0 <= b < 3)%Z -> ((3 * a + b) mod 3 = b /\ (3 * a + b) / 3 = a)%Z.
Proof. intro Hb. Z.to_euclidean_division_equations. lia. Qed.

Lemma phase_translate (k : vec3) (pos : buf) (shift : vec3) (a : Z) :
  phase k (translate pos shift) a = phase k pos a + dot3 k shift.
Proof.
  destruct k as [[k0 k1] k2], shift as [[s0 s1] s2].
  unfold phase, translate, dot3.
  replace (3 * a)%Z with (3 * a + 0)%Z at 1 2 by lia.
  destruct (atom_index_mod a 0) as [-> _]; [lia |].
  destruct (atom_index_mod a 1) as [-> _]; [lia |].
  destruct (atom_index_mod a 2) as [-> _]; [lia |].
  replace (3 * a + 0)%Z with (3 * a)%Z by lia.
  unfold component. cbn [Z.eqb Pos.eqb]. ring.
Qed.

Lemma phase_permute (k : vec3) (pos : buf) (sigma : Z -> Z) (a : Z) :
  phase k (permute_pos sigma pos) a = phase k pos (sigma a).
Proof.
  destruct k as [[k0 k1] k2]. unfold phase, permute_pos.
  replace (3 * a)%Z with (3 * a + 0)%Z at 1 2 by lia.
  destruct (atom_index_mod a 0) as [-> ->]; [lia |].
  destruct (atom_index_mod a 1) as [-> ->]; [lia |].
  destruct (atom_index_mod a 2) as [-> ->]; [lia |].
  now replace (3 * sigma a + 0)%Z with (3 * sigma a)%Z by lia.
Qed.

Section ReciInvariance.
Variables (pos : buf) (natom : Z) (charges : buf) (volume alpha : R).

(** A translation rotates the pair ([cosfac], [sinfac]). *)
Lemma cosfac_translate (k : vec3) (shift : vec3) :
  cosfac_of k (translate pos shift) charges natom =
  cos (dot3 k shift) * cosfac_of k pos charges natom
  - sin (dot3 k shift) * sinfac_of k pos charges natom.
Proof.
  unfold cosfac_of, sinfac_of.
  rewrite (sum_over_ext_in _ _
             (fun a => cos (dot3 k shift) * (charges a * cos (phase k pos a))
                       + (- sin (dot3 k shift))
                         * (charges a * sin (phase k pos a))))
    by (intros; rewrite phase_translate, cos_plus; ring).
  rewrite sum_over_plus, !sum_over_scal. ring.
Qed.

Lemma sinfac_translate (k : vec3) (shift : vec3) :
  sinfac_of k (translate pos shift) charges natom =
  sin (dot3 k shift) * cosfac_of k pos charges natom
  + cos (dot3 k shift) * sinfac_of k pos charges natom.
Proof.
  unfold cosfac_of, sinfac_of.
  rewrite (sum_over_ext_in _ _
             (fun a => sin (dot3 k shift) * (charges a * cos (phase k pos a))
                       + cos (dot3 k shift)
                         * (charges a * sin (phase k pos a))))
    by (intros; rewrite phase_translate, sin_plus; ring).
  rewrite sum_over_plus, !sum_over_scal. ring.
Qed.

Lemma reci_energy_term_translate (k : vec3) (shift : vec3) :
  reci_energy_term (translate pos shift) natom charges volume alpha k =
  reci_energy_term pos natom charges volume alpha k.
Proof.
  unfold reci_energy_term. rewrite cosfac_translate, sinfac_translate.
  pose proof (sin2_cos2 (dot3 k shift)) as H1. unfold Rsqr in H1.
  set (c := cos (dot3 k shift)) in *. set (s := sin (dot3 k shift)) in *.
  set (C := cosfac_of k pos charges natom).
  set (S := sinfac_of k pos charges natom).
  replace ((c * C - s * S) * (c * C - s * S) + (s * C + c * S) * (s * C + c * S))
    with ((s * s + c * c) * (C * C + S * S)) by ring.
  rewrite H1. ring.
Qed.

Lemma reci_energy_term_permute (k : vec3) (sigma : Z -> Z) :
  Permutation (map sigma (upto natom)) (upto natom) ->
  reci_energy_term (permute_pos sigma pos) natom
                   (permute_charges sigma charges) volume alpha k =
  reci_energy_term pos natom charges volume alpha k.
Proof.
  intro Hperm. unfold reci_energy_term, cosfac_of, sinfac_of.
  rewrite <- (sum_over_perm _ _
                (fun a => charges a * cos (phase k pos a)) Hperm).
  rewrite <- (sum_over_perm _ _
                (fun a => charges a * sin (phase k pos a)) Hperm).
  rewrite !sum_over_map. unfold permute_charges.
  rewrite (sum_over_ext_in _
             (fun a => charges (sigma a)
                       * cos (phase k (permute_pos sigma pos) a))
             (fun a => charges (sigma a) * cos (phase k pos (sigma a))))
    by (intros; now rewrite phase_permute).
  rewrite (sum_over_ext_in _
             (fun a => charges (sigma a)
                       * sin (phase k (permute_pos sigma pos) a))
             (fun a => charges (sigma a) * sin (phase k pos (sigma a))))
    by (intros; now rewrite phase_permute).
  reflexivity.
Qed.
End ReciInvariance.

(** C6: the energy returned by [compute_ewald_reci] does not change when one
    vector is added to the position of every atom, nor when positions and
    charges are renumbered by the same permutation of the atom indices. *)
Theorem reci_energy_invariant (pos : buf) (natom : Z) (charges gvecs : buf)
    (volume alpha : R) (gmax : ibuf) (gpos : option buf) (work : buf)
    (shift : vec3) (sigma : Z -> Z) :
  Permutation (map sigma (upto natom)) (upto natom) ->
  r_energy (compute_ewald_reci (translate pos shift) natom charges gvecs
              volume alpha gmax gpos work) =
  r_energy (compute_ewald_reci pos natom charges gvecs volume alpha gmax
              gpos work)
  /\ r_energy (compute_ewald_reci (permute_pos sigma pos) natom
                 (permute_charges sigma charges) gvecs volume alpha gmax
                 gpos work) =
     r_energy (compute_ewald_reci pos natom charges gvecs volume alpha gmax
                 gpos work).
Proof.
  intro Hperm. rewrite !compute_ewald_reci_energy. split.
  - apply sum_over_ext_in. intros j _. apply reci_energy_term_translate.
  - apply sum_over_ext_in. intros j _.
    now apply reci_energy_term_permute.
Qed.

Lemma reci_energy_invariant_witness :
  r_energy (compute_ewald_reci (translate two_atoms_pos (1, 2, 3)) 2
              unit_charges unit_cell 1 1 gmax_x1 None zeros) =
  r_energy (compute_ewald_reci two_atoms_pos 2 unit_charges unit_cell 1 1
              gmax_x1 None zeros)
  /\ r_energy (compute_ewald_reci (permute_pos swap01 two_atoms_pos) 2
                 (permute_charges swap01 unit_charges) unit_cell 1 1 gmax_x1
                 None zeros) =
     r_energy (compute_ewald_reci two_atoms_pos 2 unit_charges unit_cell 1 1
                 gmax_x1 None zeros).
Proof.
  apply (reci_energy_invariant two_atoms_pos 2 unit_charges unit_cell 1 1
           gmax_x1 None zeros (1, 2, 3) swap01).
  apply perm_swap.
Defined.

(** ** The gradient of [compute_ewald_corr] is the derivative of its energy *)

Lemma upd_affine (b : buf) (idx m : Z) (t : R) :
  upd b idx t m = b m + hit idx m * (t - b idx).
Proof.
  unfold upd, hit.
  destruct (Z.eq_dec m idx), (Z.eq_dec idx m); subst; try congruence; ring.
Qed.

Lemma hit_diff_small (idx m1 m2 : Z) (h r : R) :
  Rabs h < r -> Rabs ((hit idx m1 - hit idx m2) * h) < r.
Proof.
  intro Hh. pose proof (Rabs_pos h) as Hpos. unfold hit.
  destruct (Z.eq_dec idx m1), (Z.eq_dec idx m2).
  - replace ((1 - 1) * h) with 0 by ring. rewrite Rabs_R0. lra.
  - replace ((1 - 0) * h) with h by ring. exact Hh.
  - replace ((0 - 1) * h) with (- h) by ring. now rewrite Rabs_Ropp.
  - replace ((0 - 0) * h) with 0 by ring. rewrite Rabs_R0. lra.
Qed.

Lemma derivable_pt_lim_affine (D w x0 x : R) :
  derivable_pt_lim (fun t => D + w * (t - x0)) x w.
Proof.
  apply derivable_pt_lim_eq with
    (g := (fct_cte D + mult_real_fct w (id - fct_cte x0))%F)
    (l' := 0 + w * (1 - 0)).
  - intro t. reflexivity.
  - ring.
  - apply derivable_pt_lim_plus; [apply derivable_pt_lim_const |].
    apply derivable_pt_lim_scal, derivable_pt_lim_minus;
      [apply derivable_pt_lim_id | apply derivable_pt_lim_const].
Qed.

Lemma norm3_nonzero_sq (D0 D1 D2 : R) :
  norm3 (D0, D1, D2) <> 0 -> 0 < D0 * D0 + D1 * D1 + D2 * D2.
Proof.
  unfold norm3. intro Hn.
  destruct (Req_dec (D0 * D0 + D1 * D1 + D2 * D2) 0) as [H0 | H0].
  - rewrite H0, sqrt_0 in Hn. now elim Hn.
  - nra.
Qed.

(** The length of a vector that moves along [w] with unit speed. *)
Lemma derivable_pt_lim_norm3_affine (D0 D1 D2 w0 w1 w2 x0 : R) :
  norm3 (D0, D1, D2) <> 0 ->
  derivable_pt_lim
    (fun t => norm3 (D0 + w0 * (t - x0), D1 + w1 * (t - x0),
                     D2 + w2 * (t - x0)))
    x0
    (dot3 (D0, D1, D2) (w0, w1, w2) / norm3 (D0, D1, D2)).
Proof.
  intro Hn. pose proof (norm3_nonzero_sq D0 D1 D2 Hn) as Hs.
  set (a0 := fun t => D0 + w0 * (t - x0)).
  set (a1 := fun t => D1 + w1 * (t - x0)).
  set (a2 := fun t => D2 + w2 * (t - x0)).
  set (p := (a0 * a0 + a1 * a1 + a2 * a2)%F).
  assert (Hp0 : p x0 = D0 * D0 + D1 * D1 + D2 * D2).
  { subst p a0 a1 a2. unfold plus_fct, mult_fct. ring. }
  assert (Hp : derivable_pt_lim p x0
                 (2 * dot3 (D0, D1, D2) (w0, w1, w2))).
  { eapply derivable_pt_lim_eq;
      [intro t; reflexivity | |
       subst p; repeat apply derivable_pt_lim_plus;
       apply derivable_pt_lim_mult; apply derivable_pt_lim_affine].
    subst a0 a1 a2. unfold dot3. cbv beta. ring. }
  assert (Hq : derivable_pt_lim sqrt (p x0) (/ (2 * sqrt (p x0)))).
  { apply derivable_pt_lim_sqrt. rewrite Hp0. exact Hs. }
  pose proof (derivable_pt_lim_comp p sqrt x0 _ _ Hp Hq) as Hc.
  eapply derivable_pt_lim_eq; [| | exact Hc].
  - intro t. reflexivity.
  - rewrite Hp0. unfold norm3. field.
    unfold norm3 in Hn. exact Hn.
Qed.

(** The potential [erf(alpha·u)/u] as a function of the distance. *)
Lemma derivable_pt_lim_pot (alpha d : R) :
  d <> 0 ->
  derivable_pt_lim (fun u => erf (alpha * u) / u) d
    ((M_TWO_DIV_SQRT_PI * alpha * exp ((- (alpha * d)) * (alpha * d))
      - erf (alpha * d) / d) / d).
Proof.
  intro Hd.
  assert (He : derivable_pt_lim (fun u => erf (alpha * u)) d
                 (M_TWO_DIV_SQRT_PI * exp (- (alpha * d * (alpha * d)))
                  * (alpha * 1))).
  { apply (derivable_pt_lim_comp (fun u => alpha * u) erf).
    - apply (derivable_pt_lim_scal id alpha). apply derivable_pt_lim_id.
    - apply derivable_pt_lim_erf. }
  pose proof (derivable_pt_lim_div _ id d _ _ He (derivable_pt_lim_id d) Hd)
    as Hdiv.
  eapply derivable_pt_lim_eq; [| | exact Hdiv].
  - intro u. reflexivity.
  - unfold id, Rsqr.
    replace ((- (alpha * d)) * (alpha * d)) with (- (alpha * d * (alpha * d)))
      by ring.
    field. exact Hd.
Qed.

Section CorrDerivative.
Variables (mic : mic_type) (pos : buf) (center_index : Z).
Variables (charges rvecs gvecs : buf) (alpha : R).
Variable idx : Z.

(** The displacement before [mic], as a function of one element of [pos]. *)
Lemma raw_delta_upd (other_index : Z) (t : R) :
  raw_delta (upd pos idx t) center_index other_index =
  let '(r0, r1, r2) := raw_delta pos center_index other_index in
  (r0 + (hit idx (3 * center_index) - hit idx (3 * other_index))
        * (t - pos idx),
   r1 + (hit idx (3 * center_index + 1) - hit idx (3 * other_index + 1))
        * (t - pos idx),
   r2 + (hit idx (3 * center_index + 2) - hit idx (3 * other_index + 2))
        * (t - pos idx)).
Proof.
  unfold raw_delta. cbv beta iota. rewrite !upd_affine.
  f_equal; [f_equal |]; ring.
Qed.

(** The term [fac·pot] of one row, as a function of one element of [pos]:
    its derivative is the opposite of what the row adds to that element of
    [gpos]. *)
Lemma derivable_pt_lim_row_energy (row : scaling_row_type) :
  row_d mic pos center_index rvecs gvecs row <> 0 ->
  locally_translation mic rvecs gvecs (raw_delta pos center_index (i row)) ->
  derivable_pt_lim
    (fun t => row_fac center_index charges row
              * row_pot mic (upd pos idx t) center_index rvecs gvecs alpha row)
    (pos idx)
    (- (pair_weight (row_delta mic pos center_index rvecs gvecs row)
                    center_index (i row) idx
        * row_g mic pos center_index charges rvecs gvecs alpha row)).
Proof.
  intros Hd [[[s0 s1] s2] [r [Hr Hloc]]].
  destruct (raw_delta pos center_index (i row)) as [[r0 r1] r2] eqn:Hraw.
  set (w0 := hit idx (3 * center_index) - hit idx (3 * i row)).
  set (w1 := hit idx (3 * center_index + 1) - hit idx (3 * i row + 1)).
  set (w2 := hit idx (3 * center_index + 2) - hit idx (3 * i row + 2)).
  (* the displacement after [mic], at [pos] and close to it *)
  assert (Hdelta : row_delta mic pos center_index rvecs gvecs row =
                   (r0 + s0, r1 + s1, r2 + s2)).
  { unfold row_delta, pair_delta. rewrite Hraw.
    pose proof (Hloc 0 0 0) as H0. rewrite Rabs_R0, !Rplus_0_r in H0.
    now apply H0. }
  assert (Hnear : forall t, Rabs (t - pos idx) < r ->
            row_delta mic (upd pos idx t) center_index rvecs gvecs row =
            (r0 + s0 + w0 * (t - pos idx), r1 + s1 + w1 * (t - pos idx),
             r2 + s2 + w2 * (t - pos idx))).
  { intros t Ht. unfold row_delta, pair_delta.
    rewrite raw_delta_upd, Hraw. fold w0 w1 w2.
    rewrite (Hloc (w0 * (t - pos idx)) (w1 * (t - pos idx))
                  (w2 * (t - pos idx)))
      by (now apply hit_diff_small).
    f_equal; [f_equal |]; ring. }
  unfold row_d in Hd. rewrite Hdelta in Hd.
  (* the same function, without [mic] *)
  set (n := fun t => norm3 (r0 + s0 + w0 * (t - pos idx),
                            r1 + s1 + w1 * (t - pos idx),
                            r2 + s2 + w2 * (t - pos idx))).
  set (d := norm3 (r0 + s0, r1 + s1, r2 + s2)) in *.
  assert (Hn0 : n (pos idx) = d).
  { subst n d. cbv beta. f_equal. f_equal; [f_equal |]; ring. }
  pose proof (derivable_pt_lim_norm3_affine _ _ _ w0 w1 w2 (pos idx) Hd)
    as Hn. fold n in Hn. fold d in Hn.
  pose proof (derivable_pt_lim_pot alpha d Hd) as Hpot.
  rewrite <- Hn0 in Hpot at 1.
  pose proof (derivable_pt_lim_scal _ (row_fac center_index charges row) _ _
                (derivable_pt_lim_comp n _ _ _ _ Hn Hpot)) as Hall.
  eapply derivable_pt_lim_local with (r := r); [exact Hr | |].
  - intros t Ht. unfold row_pot, row_d. rewrite (Hnear t Ht).
    fold (n t). reflexivity.
  - eapply derivable_pt_lim_eq; [| | exact Hall].
    + intro t. reflexivity.
    + unfold row_g, row_pot, row_d. rewrite Hdelta. fold d.
      unfold pair_weight, dot3. fold w0 w1 w2. field. exact Hd.
Qed.

(** The energy of the whole call, as a function of one element of [pos]. *)
Lemma derivable_pt_lim_corr_energy (scaling : list scaling_row_type)
    (gpos vtens : option buf) :
  (forall row, In row scaling -> contributes center_index row = true ->
     row_d mic pos center_index rvecs gvecs row <> 0 /\
     locally_translation mic rvecs gvecs
       (raw_delta pos center_index (i row))) ->
  derivable_pt_lim
    (fun t => c_energy (compute_ewald_corr mic (upd pos idx t) center_index
                          charges rvecs gvecs alpha scaling gpos vtens))
    (pos idx)
    (sum_over scaling
       (fun row =>
          if contributes center_index row
          then pair_weight (row_delta mic pos center_index rvecs gvecs row)
                           center_index (i row) idx
               * row_g mic pos center_index charges rvecs gvecs alpha row
          else 0)).
Proof.
  intro Hrows.
  set (self := 0 - alpha / M_SQRT_PI * charges center_index
                   * charges center_index).
  eapply derivable_pt_lim_eq with
    (g := fun t =>
            self + -1 * sum_over scaling
              (fun row =>
                 if contributes center_index row
                 then row_fac center_index charges row
                      * row_pot mic (upd pos idx t) center_index rvecs gvecs
                                alpha row
                 else 0)).
  - intro t. unfold compute_ewald_corr. rewrite corr_fold_energy.
    cbn [c_energy]. fold self. ring.
  - reflexivity.
  - replace (sum_over scaling _) with
      (0 + -1 * sum_over scaling
         (fun row =>
            if contributes center_index row
            then - (pair_weight (row_delta mic pos center_index rvecs gvecs row)
                                center_index (i row) idx
                    * row_g mic pos center_index charges rvecs gvecs alpha row)
            else 0)).
    + apply derivable_pt_lim_plus; [apply derivable_pt_lim_const |].
      apply derivable_pt_lim_scal.
      apply (derivable_pt_lim_sum_over scaling
               (fun row t =>
                  if contributes center_index row
                  then row_fac center_index charges row
                       * row_pot mic (upd pos idx t) center_index rvecs gvecs
                                 alpha row
                  else 0)).
      intros row Hrow.
      destruct (contributes center_index row) eqn:Hc.
      * destruct (Hrows row Hrow Hc) as [Hd Hloc].
        now apply derivable_pt_lim_row_energy.
      * apply derivable_pt_lim_const.
    + rewrite Rplus_0_l, <- sum_over_scal. apply sum_over_ext_in.
      intros row _. destruct (contributes center_index row); ring.
Qed.
End CorrDerivative.

(** C3: for every element [idx] of the position array (so for every atomic
    coordinate), what a call adds to [gpos[idx]] is the derivative of the
    energy the call returns with respect to [pos[idx]]: for
    [compute_ewald_reci] always, and for [compute_ewald_corr] when every
    contributing pair has a non-zero distance and [mic] keeps the same
    periodic image for displacements close to the pair's. *)
Theorem gradient_is_energy_derivative (mic : mic_type) (pos : buf)
    (natom center_index : Z) (charges rvecs gvecs : buf) (volume alpha : R)
    (gmax : ibuf) (scaling : list scaling_row_type)
    (gpos work : buf) (vtens : option buf) (idx : Z) :
  (exists gpos' : buf,
      r_gpos (compute_ewald_reci pos natom charges gvecs volume alpha gmax
                                 (Some gpos) work) = Some gpos' /\
      derivable_pt_lim
        (fun t => r_energy (compute_ewald_reci (upd pos idx t) natom charges
                              gvecs volume alpha gmax (Some gpos) work))
        (pos idx) (gpos' idx - gpos idx))
  /\
  ((forall row, In row scaling -> (i row < center_index)%Z ->
      row_d mic pos center_index rvecs gvecs row <> 0 /\
      locally_translation mic rvecs gvecs
        (raw_delta pos center_index (i row))) ->
   exists gpos' : buf,
     c_gpos (compute_ewald_corr mic pos center_index charges rvecs gvecs
                                alpha scaling (Some gpos) vtens)
     = Some gpos' /\
     derivable_pt_lim
       (fun t => c_energy (compute_ewald_corr mic (upd pos idx t)
                             center_index charges rvecs gvecs alpha scaling
                             (Some gpos) vtens))
       (pos idx) (gpos' idx - gpos idx)).
Proof.
  split; [| intro Hrows].
  - destruct (compute_ewald_reci_gpos pos natom charges gvecs volume alpha
                gmax gpos work) as [gpos' [Hg Hv]].
    exists gpos'. split; [exact Hg |].
    rewrite Hv.
    replace (gpos idx + _ - gpos idx) with
      (sum_over (kept_triples gmax)
         (fun j => reci_gpos_term pos natom charges volume alpha
                     (wavevector_of gvecs j) idx)) by ring.
    apply derivable_pt_lim_reci_energy.
  - unfold compute_ewald_corr at 1. rewrite corr_fold_gpos.
    cbn [c_gpos option_map]. eexists. split; [reflexivity |].
    rewrite gpos_step_fold.
    match goal with
    | |- derivable_pt_lim _ _ (gpos idx + ?s - gpos idx) =>
        replace (gpos idx + s - gpos idx) with s by ring
    end.
    apply derivable_pt_lim_corr_energy.
    intros row Hrow Hc. apply Hrows; [exact Hrow |].
    rewrite contributes_ltb in Hc. now apply Z.ltb_lt.
Qed.

Lemma mic_none_locally_translation (rvecs gvecs : buf) (delta : vec3) :
  locally_translation mic_none rvecs gvecs delta.
Proof.
  exists (0, 0, 0), 1. split; [lra |].
  intros e0 e1 e2 _ _ _. destruct delta as [[d0 d1] d2].
  unfold mic_none. f_equal; [f_equal |]; ring.
Qed.

Lemma two_atoms_distance :
  row_d mic_none two_atoms_pos 1 unit_cell unit_cell {| i := 0; scale := 0 |}
  = 1 / 4.
Proof.
  unfold row_d, row_delta, pair_delta, raw_delta, mic_none, norm3,
    two_atoms_pos. cbn [i Z.mul Z.add Z.eqb Pos.mul Pos.add Pos.eqb].
  replace ((1 / 4 - 0) * (1 / 4 - 0) + (0 - 0) * (0 - 0) + (0 - 0) * (0 - 0))
    with (Rsqr (1 / 4)) by (unfold Rsqr; lra).
  apply sqrt_Rsqr. lra.
Qed.

Lemma gradient_is_energy_derivative_witness :
  exists gpos' : buf,
    c_gpos (compute_ewald_corr mic_none two_atoms_pos 1 unit_charges
              unit_cell unit_cell 1 [{| i := 0; scale := 0 |}]
              (Some zeros) None)
    = Some gpos' /\
    derivable_pt_lim
      (fun t => c_energy (compute_ewald_corr mic_none
                            (upd two_atoms_pos 3 t) 1 unit_charges unit_cell
                            unit_cell 1 [{| i := 0; scale := 0 |}]
                            (Some zeros) None))
      (two_atoms_pos 3%Z) (gpos' 3%Z - zeros 3%Z).
Proof.
  apply (proj2 (gradient_is_energy_derivative mic_none two_atoms_pos 2 1
                  unit_charges unit_cell unit_cell 1 1 gmax_x1
                  [{| i := 0; scale := 0 |}] zeros zeros None 3)).
  intros row [<- | []] _. split.
  - rewrite two_atoms_distance. lra.
  - apply mic_none_locally_translation.
Defined.

(** ** No precondition is checked *)

Lemma fac2_opp (alpha : R) : 0.25 / - alpha / - alpha = 0.25 / alpha / alpha.
Proof. unfold Rdiv. rewrite Rinv_opp. ring. Qed.

Lemma reci_body_opp_alpha (pos : buf) (natom : Z) (charges gvecs : buf)
    (volume alpha : R) (st : reci_state) (j : Z * Z * Z) :
  reci_body pos natom charges gvecs volume (- alpha) st j =
  reci_body pos natom charges gvecs volume alpha st j.
Proof. unfold reci_body. now rewrite fac2_opp. Qed.

Lemma compute_ewald_reci_opp_alpha (pos : buf) (natom : Z)
    (charges gvecs : buf) (volume alpha : R) (gmax : ibuf)
    (gpos : option buf) (work : buf) :
  compute_ewald_reci pos natom charges gvecs volume (- alpha) gmax gpos work =
  compute_ewald_reci pos natom charges gvecs volume alpha gmax gpos work.
Proof.
  rewrite !compute_ewald_reci_fold. apply fold_left_ext.
  intros st j. apply reci_body_opp_alpha.
Qed.

Lemma kept_triples_gmax_x1 :
  kept_triples gmax_x1 = [(-1, 0, 0); (1, 0, 0)]%Z.
Proof. reflexivity. Qed.

Lemma upto_2 : upto 2 = [0; 1]%Z.
Proof. reflexivity. Qed.

Lemma wavevector_unit_cell_x (j0 : Z) :
  wavevector_of unit_cell (j0, 0, 0)%Z = (2 * PI * IZR j0, 0, 0).
Proof.
  unfold wavevector_of, wavevector, unit_cell, M_TWO_PI.
  cbn [Z.eqb Pos.eqb orb]. f_equal; [f_equal |]; ring.
Qed.

Lemma reci_coeff_pos (volume alpha k0 : R) :
  0 < volume -> k0 <> 0 -> 0 < reci_coeff volume alpha (k0, 0, 0).
Proof.
  intros Hv Hk. unfold reci_coeff, ksq_of, M_TWO_PI.
  pose proof PI_RGT_0 as Hpi.
  apply Rdiv_lt_0_compat; [| nra].
  apply Rmult_lt_0_compat; [| apply exp_pos].
  apply Rdiv_lt_0_compat; lra.
Qed.

(** What one vector along the first axis adds to [gpos[0]] for the two
    atoms of the example. *)
Lemma reci_gpos_term_two_atoms (alpha k0 : R) :
  reci_gpos_term two_atoms_pos 2 unit_charges 1 alpha (k0, 0, 0) 0 =
  k0 * (reci_coeff 1 alpha (k0, 0, 0) * (2 * sin (k0 / 4))).
Proof.
  unfold reci_gpos_term, atom_factor, cosfac_of, sinfac_of.
  rewrite upto_2. unfold sum_over. cbn [fold_right].
  unfold axis_weight, phase, two_atoms_pos, unit_charges, hit.
  cbn [Z.mul Z.add Z.eqb Pos.mul Pos.add Pos.eqb Z.eq_dec].
  replace (k0 * 0 + 0 * 0 + 0 * 0) with 0 by ring.
  replace (k0 * (1 / 4) + 0 * 0 + 0 * 0) with (k0 / 4) by lra.
  rewrite sin_0, cos_0.
  repeat match goal with
         | |- context [Z.eq_dec ?x ?y] =>
             destruct (Z.eq_dec x y); try discriminate; try congruence
         end.
  ring.
Qed.

(** With [alpha = -1] the call of [compute_ewald_reci] on the two atoms of
    the example goes through and changes [gpos[0]]. *)
Lemma negative_alpha_call_changes_gpos :
  -1 <= 0 /\
  exists gpos' : buf,
    r_gpos (compute_ewald_reci two_atoms_pos 2 unit_charges unit_cell 1 (-1)
                               gmax_x1 (Some zeros) zeros) = Some gpos' /\
    gpos' 0%Z <> zeros 0%Z.
Proof.
  split; [lra |].
  destruct (compute_ewald_reci_gpos two_atoms_pos 2 unit_charges unit_cell
              1 (-1) gmax_x1 zeros zeros) as [gpos' [Hg Hv]].
  exists gpos'. split; [exact Hg |].
  rewrite Hv, kept_triples_gmax_x1. unfold sum_over. cbn [fold_right].
  rewrite !wavevector_unit_cell_x, !reci_gpos_term_two_atoms.
  replace (2 * PI * -1 / 4) with (- (PI / 2)) by lra.
  replace (2 * PI * 1 / 4) with (PI / 2) by lra.
  rewrite sin_neg, sin_PI2.
  pose proof PI_RGT_0 as Hpi.
  assert (Hm : 0 < reci_coeff 1 (-1) (2 * PI * -1, 0, 0))
    by (apply reci_coeff_pos; lra).
  assert (Hp : 0 < reci_coeff 1 (-1) (2 * PI * 1, 0, 0))
    by (apply reci_coeff_pos; lra).
  unfold zeros. nra.
Qed.

(** C8, as the code has it: neither routine checks a precondition or
    reports an error.  [compute_ewald_reci] gives for [-alpha] what it
    gives for [alpha]; [compute_ewald_corr] adds to the arrays it is given,
    for every [alpha] and every distance, the sums of the pair terms of the
    contributing rows; only an array that is not passed stays untouched. *)
Theorem ewald_routines_check_nothing (mic : mic_type) (pos : buf)
    (natom center_index : Z) (charges rvecs gvecs : buf) (volume alpha : R)
    (gmax : ibuf) (scaling : list scaling_row_type)
    (gpos vtens work : buf) (gpos_opt vtens_opt : option buf) :
  compute_ewald_reci pos natom charges gvecs volume (- alpha) gmax
                     gpos_opt work =
  compute_ewald_reci pos natom charges gvecs volume alpha gmax gpos_opt work
  /\ r_gpos (compute_ewald_reci pos natom charges gvecs volume alpha gmax
                                None work) = None
  /\ (exists gpos' vtens' : buf,
        c_gpos (compute_ewald_corr mic pos center_index charges rvecs gvecs
                  alpha scaling (Some gpos) (Some vtens)) = Some gpos' /\
        c_vtens (compute_ewald_corr mic pos center_index charges rvecs gvecs
                   alpha scaling (Some gpos) (Some vtens)) = Some vtens' /\
        (forall m : Z,
            gpos' m =
            gpos m
            + sum_over scaling
                (fun row =>
                   if contributes center_index row
                   then pair_weight
                          (row_delta mic pos center_index rvecs gvecs row)
                          center_index (i row) m
                        * row_g mic pos center_index charges rvecs gvecs
                                alpha row
                   else 0)) /\
        (forall m : Z,
            vtens' m =
            vtens m
            + sum_over scaling
                (fun row =>
                   if contributes center_index row
                   then outer_weight
                          (row_delta mic pos center_index rvecs gvecs row) m
                        * row_g mic pos center_index charges rvecs gvecs
                                alpha row
                   else 0)))
  /\ c_gpos (compute_ewald_corr mic pos center_index charges rvecs gvecs
               alpha scaling None vtens_opt) = None
  /\ c_vtens (compute_ewald_corr mic pos center_index charges rvecs gvecs
                alpha scaling gpos_opt None) = None.
Proof.
  split; [apply compute_ewald_reci_opp_alpha |].
  split; [rewrite compute_ewald_reci_fold; now apply reci_fold_gpos_None |].
  unfold compute_ewald_corr. rewrite !corr_fold_gpos, !corr_fold_vtens.
  cbn [c_gpos c_vtens option_map]. split; [| split; reflexivity].
  eexists. eexists. split; [reflexivity |]. split; [reflexivity |]. split.
  - intro m. apply gpos_step_fold.
  - intro m. apply vtens_step_fold.
Qed.

(** ** The example, traced through [compute_ewald_corr] *)

(** Center atom 1 with the single row (0, scale 0): the self term, then the
    pair at distance 1/4. *)
Example corr_two_atoms_energy :
  c_energy (compute_ewald_corr mic_none two_atoms_pos 1 unit_charges
              unit_cell unit_cell 1 [{| i := 0; scale := 0 |}] None None)
  = - (1 / sqrt PI) - 4 * erf (1 / 4).
Proof.
  unfold compute_ewald_corr. rewrite corr_fold_energy.
  unfold sum_over. cbn [fold_right c_energy contributes i Z.geb Z.compare negb].
  unfold row_pot, row_fac. rewrite two_atoms_distance.
  unfold unit_charges, M_SQRT_PI. cbn [scale].
  replace (1 * (1 / 4)) with (1 / 4) by lra.
  assert (Hpi : sqrt PI <> 0).
  { pose proof PI_RGT_0. pose proof (sqrt_lt_R0 PI). lra. }
  field. exact Hpi.
Qed.

(** Center atom 0 with the same row: the row is skipped. *)
Example corr_row_skipped :
  compute_ewald_corr mic_none two_atoms_pos 0 unit_charges unit_cell
    unit_cell 1 [{| i := 0; scale := 0 |}] (Some zeros) (Some zeros)
  = compute_ewald_corr mic_none two_atoms_pos 0 unit_charges unit_cell
      unit_cell 1 [] (Some zeros) (Some zeros).
Proof. reflexivity. Qed.

(** * Further properties of the two routines *)

(** ** Empty loops of [compute_ewald_reci] *)

Lemma triples_nil (gmax : ibuf) :
  (gmax 0 < 0 \/ gmax 1 < 0 \/ gmax 2 < 0)%Z -> triples gmax = [].
Proof.
  intro Hneg. destruct (triples gmax) as [| [[j0 j1] j2] l] eqn:E;
    [reflexivity | exfalso].
  assert (Hin : In (j0, j1, j2) (triples gmax)) by (rewrite E; now left).
  apply In_triples in Hin. lia.
Qed.

Lemma triples_zero (gmax : ibuf) :
  (gmax 0 = 0 /\ gmax 1 = 0 /\ gmax 2 = 0)%Z -> triples gmax = [(0, 0, 0)%Z].
Proof. intros [H0 [H1 H2]]. unfold triples. now rewrite H0, H1, H2. Qed.

(** X1: for loop bounds inside the range of [long], when some [gmax[d]] is
    negative, or all three are 0, no vector is processed: the call returns
    energy 0 together with the arrays it was given. *)
Theorem reci_no_vector (pos : buf) (natom : Z) (charges gvecs : buf)
    (volume alpha : R) (gmax : ibuf) (gpos : option buf) (work : buf) :
  loop_bounds_in_range gmax ->
  (gmax 0 < 0 \/ gmax 1 < 0 \/ gmax 2 < 0
   \/ (gmax 0 = 0 /\ gmax 1 = 0 /\ gmax 2 = 0))%Z ->
  compute_ewald_reci pos natom charges gvecs volume alpha gmax gpos work =
  {| r_energy := 0; r_gpos := gpos; r_work := work |}.
Proof.
  intros _ Hg. rewrite compute_ewald_reci_fold.
  assert (Hcases : (gmax 0 < 0 \/ gmax 1 < 0 \/ gmax 2 < 0)%Z
                   \/ (gmax 0 = 0 /\ gmax 1 = 0 /\ gmax 2 = 0)%Z) by tauto.
  destruct Hcases as [Hneg | Hzero].
  - now rewrite (triples_nil gmax Hneg).
  - now rewrite (triples_zero gmax Hzero).
Qed.

Lemma reci_no_vector_witness :
  compute_ewald_reci two_atoms_pos 2 unit_charges unit_cell 1 1
                     (fun _ => 0%Z) (Some zeros) zeros =
  {| r_energy := 0; r_gpos := Some zeros; r_work := zeros |}.
Proof.
  apply (reci_no_vector two_atoms_pos 2 unit_charges unit_cell 1 1
           (fun _ => 0%Z) (Some zeros) zeros).
  - intros d _. unfold LONG_MAX. lia.
  - right. right. right. repeat split; reflexivity.
Defined.

(** ** What [compute_ewald_reci] writes, and where *)

Section ReciWrites.
Variables (pos : buf) (natom : Z) (charges gvecs : buf) (volume alpha : R).

Lemma structure_fold_work_false (k : vec3) (l : list Z) :
  forall (C S : R) (w : buf),
    snd (fold_left (structure_step k pos charges false) l (C, S, w)) = w.
Proof.
  induction l as [| a l IH]; intros C S w; [reflexivity |].
  rewrite fold_left_cons. unfold structure_step at 2. apply IH.
Qed.

(** Without a gradient array an iteration leaves [work] alone. *)
Lemma reci_body_work_None (st : reci_state) (j : Z * Z * Z) :
  r_gpos st = None ->
  r_work (reci_body pos natom charges gvecs volume alpha st j) = r_work st.
Proof.
  intro Hg. destruct j as [[j0 j1] j2]. unfold reci_body.
  destruct (skip_triple j0 j1 j2); [reflexivity |].
  destruct (wavevector gvecs j0 j1 j2) as [[k0 k1] k2].
  rewrite Hg.
  pose proof (structure_fold_work_false (k0, k1, k2) (upto natom) 0 0
                (r_work st)) as Hw.
  destruct (fold_left _ _ _) as [[C S] w]. exact Hw.
Qed.

Lemma reci_fold_work_None (l : list (Z * Z * Z)) :
  forall st : reci_state,
    r_gpos st = None ->
    r_work (fold_left (reci_body pos natom charges gvecs volume alpha) l st)
    = r_work st.
Proof.
  induction l as [| j l IH]; intros st Hg; [reflexivity |].
  rewrite fold_left_cons, IH.
  - now apply reci_body_work_None.
  - now apply reci_body_gpos_None.
Qed.

(** An iteration writes [work] at the elements of the atoms only. *)
Lemma reci_body_work_outside (st : reci_state) (j : Z * Z * Z) (m : Z) :
  (m < 0 \/ 2 * natom <= m)%Z ->
  r_work (reci_body pos natom charges gvecs volume alpha st j) m
  = r_work st m.
Proof.
  intro Hm. destruct j as [[j0 j1] j2]. unfold reci_body.
  destruct (skip_triple j0 j1 j2); [reflexivity |].
  destruct (wavevector gvecs j0 j1 j2) as [[k0 k1] k2].
  match goal with
  | |- context [structure_step ?k _ _ ?b] =>
      pose proof (structure_fold_work_kept pos charges k b (upto natom) m)
        as Hw
  end.
  specialize (Hw (fun a Ha => ltac:(apply In_upto in Ha; lia)) 0 0 (r_work st)).
  destruct (fold_left _ _ _) as [[C S] w]. exact Hw.
Qed.

Lemma reci_fold_work_outside (l : list (Z * Z * Z)) (m : Z) :
  (m < 0 \/ 2 * natom <= m)%Z ->
  forall st : reci_state,
    r_work (fold_left (reci_body pos natom charges gvecs volume alpha) l st) m
    = r_work st m.
Proof.
  intro Hm. induction l as [| j l IH]; intro st; [reflexivity |].
  rewrite fold_left_cons, IH. now apply reci_body_work_outside.
Qed.

(** No vector adds anything to an element of [gpos] outside the atoms. *)
Lemma reci_gpos_term_outside (k : vec3) (m : Z) :
  (m < 0 \/ 3 * natom <= m)%Z ->
  reci_gpos_term pos natom charges volume alpha k m = 0.
Proof.
  intro Hm. unfold reci_gpos_term. apply sum_over_zero. intros a Ha.
  apply In_upto in Ha. destruct k as [[k0 k1] k2]. unfold axis_weight.
  rewrite !hit_other by lia. ring.
Qed.
End ReciWrites.

(** X2: [compute_ewald_reci] writes [gpos] only at the 3·natom elements of
    the atoms and [work] only at its first 2·natom elements; every other
    element of the two arrays keeps its value. *)
Theorem reci_writes_within_bounds (pos : buf) (natom : Z)
    (charges gvecs : buf) (volume alpha : R) (gmax : ibuf) (gpos work : buf) :
  let call := compute_ewald_reci pos natom charges gvecs volume alpha gmax
                (Some gpos) work in
  (forall m : Z, (m < 0 \/ 3 * natom <= m)%Z ->
                 contents (r_gpos call) m = gpos m)
  /\ (forall m : Z, (m < 0 \/ 2 * natom <= m)%Z -> r_work call m = work m).
Proof.
  cbv zeta. split.
  - intros m Hm.
    destruct (compute_ewald_reci_gpos pos natom charges gvecs volume alpha
                gmax gpos work) as [g' [Hg Hv]].
    rewrite Hg. cbn [contents]. rewrite Hv, sum_over_zero; [ring |].
    intros j _. now apply reci_gpos_term_outside.
  - intros m Hm. rewrite compute_ewald_reci_fold.
    now rewrite reci_fold_work_outside.
Qed.

(** X3: the energy returned by [compute_ewald_reci] is the same with and
    without a gradient array, whatever the arrays hold; and without a
    gradient array the call writes nothing: [work] is returned as it was. *)
Theorem reci_energy_ignores_arrays (pos : buf) (natom : Z)
    (charges gvecs : buf) (volume alpha : R) (gmax : ibuf)
    (gpos1 gpos2 : option buf) (work1 work2 : buf) :
  r_energy (compute_ewald_reci pos natom charges gvecs volume alpha gmax
              gpos1 work1) =
  r_energy (compute_ewald_reci pos natom charges gvecs volume alpha gmax
              gpos2 work2)
  /\ r_gpos (compute_ewald_reci pos natom charges gvecs volume alpha gmax
               None work1) = None
  /\ r_work (compute_ewald_reci pos natom charges gvecs volume alpha gmax
               None work1) = work1.
Proof.
  split; [now rewrite !compute_ewald_reci_energy |].
  rewrite compute_ewald_reci_fold. split.
  - now apply reci_fold_gpos_None.
  - now rewrite reci_fold_work_None.
Qed.

(** ** The reciprocal sum is quadratic in the charges *)

Section ReciCharges.
Variables (pos : buf) (natom : Z) (charges gvecs : buf) (volume alpha : R).
Variable lambda : R.

Lemma cosfac_scale_charges (k : vec3) :
  cosfac_of k pos (scale_charges lambda charges) natom =
  lambda * cosfac_of k pos charges natom.
Proof.
  unfold cosfac_of, scale_charges. rewrite <- sum_over_scal.
  apply sum_over_ext_in. intros; ring.
Qed.

Lemma sinfac_scale_charges (k : vec3) :
  sinfac_of k pos (scale_charges lambda charges) natom =
  lambda * sinfac_of k pos charges natom.
Proof.
  unfold sinfac_of, scale_charges. rewrite <- sum_over_scal.
  apply sum_over_ext_in. intros; ring.
Qed.

Lemma reci_energy_term_scale_charges (k : vec3) :
  reci_energy_term pos natom (scale_charges lambda charges) volume alpha k =
  lambda * lambda * reci_energy_term pos natom charges volume alpha k.
Proof.
  unfold reci_energy_term.
  rewrite cosfac_scale_charges, sinfac_scale_charges. ring.
Qed.

Lemma reci_gpos_term_scale_charges (k : vec3) (m : Z) :
  reci_gpos_term pos natom (scale_charges lambda charges) volume alpha k m =
  lambda * lambda * reci_gpos_term pos natom charges volume alpha k m.
Proof.
  unfold reci_gpos_term. rewrite <- sum_over_scal.
  apply sum_over_ext_in. intros a _. unfold atom_factor.
  rewrite cosfac_scale_charges, sinfac_scale_charges.
  unfold scale_charges. ring.
Qed.
End ReciCharges.

(** X4: multiplying every charge by [lambda] multiplies the energy returned
    by [compute_ewald_reci], and what the call adds to each element of
    [gpos], by [lambda]²; in particular neither changes when all charges
    change sign, and both are zero when all charges are zero. *)
Theorem reci_quadratic_in_charges (pos : buf) (natom : Z)
    (charges gvecs : buf) (volume alpha : R) (gmax : ibuf)
    (gpos work : buf) (lambda : R) :
  let call := compute_ewald_reci pos natom charges gvecs volume alpha gmax
                (Some gpos) work in
  let scaled := compute_ewald_reci pos natom (scale_charges lambda charges)
                  gvecs volume alpha gmax (Some gpos) work in
  r_energy scaled = lambda * lambda * r_energy call
  /\ forall m : Z,
       contents (r_gpos scaled) m - gpos m =
       lambda * lambda * (contents (r_gpos call) m - gpos m).
Proof.
  cbv zeta. split.
  - rewrite !compute_ewald_reci_energy, <- sum_over_scal.
    apply sum_over_ext_in. intros j _.
    apply reci_energy_term_scale_charges.
  - intro m.
    destruct (compute_ewald_reci_gpos pos natom charges gvecs volume alpha
                gmax gpos work) as [g1 [Hg1 Hv1]].
    destruct (compute_ewald_reci_gpos pos natom (scale_charges lambda charges)
                gvecs volume alpha gmax gpos work) as [g2 [Hg2 Hv2]].
    rewrite Hg1, Hg2. cbn [contents]. rewrite Hv1, Hv2.
    rewrite (sum_over_ext_in _ _
               (fun j => lambda * lambda
                         * reci_gpos_term pos natom charges volume alpha
                             (wavevector_of gvecs j) m))
      by (intros; apply reci_gpos_term_scale_charges).
    rewrite sum_over_scal. ring.
Qed.

(** ** The vectors k and −k contribute the same *)

Lemma wavevector_of_opp (gvecs : buf) (j0 j1 j2 : Z) :
  wavevector_of gvecs (- j0, - j1, - j2)%Z =
  opp3 (wavevector_of gvecs (j0, j1, j2)).
Proof.
  unfold wavevector_of, wavevector, opp3. rewrite !opp_IZR.
  f_equal; [f_equal |]; ring.
Qed.

Lemma skipped_opp (j0 j1 j2 : Z) :
  skipped (- j0, - j1, - j2)%Z = skipped (j0, j1, j2).
Proof.
  unfold skipped, skip_triple.
  destruct (Z.eqb_spec j0 0), (Z.eqb_spec j1 0), (Z.eqb_spec j2 0);
    destruct (Z.eqb_spec (- j0) 0), (Z.eqb_spec (- j1) 0),
      (Z.eqb_spec (- j2) 0); try lia; reflexivity.
Qed.

Section ReciInversion.
Variables (pos : buf) (natom : Z) (charges : buf) (volume alpha : R).

Lemma phase_opp (k : vec3) (a : Z) : phase (opp3 k) pos a = - phase k pos a.
Proof. destruct k as [[k0 k1] k2]. unfold phase, opp3. ring. Qed.

Lemma cosfac_opp (k : vec3) :
  cosfac_of (opp3 k) pos charges natom = cosfac_of k pos charges natom.
Proof.
  unfold cosfac_of. apply sum_over_ext_in. intros a _.
  now rewrite phase_opp, cos_neg.
Qed.

Lemma sinfac_opp (k : vec3) :
  sinfac_of (opp3 k) pos charges natom = - sinfac_of k pos charges natom.
Proof.
  unfold sinfac_of.
  rewrite (sum_over_ext_in _ _
             (fun a => -1 * (charges a * sin (phase k pos a))))
    by (intros; rewrite phase_opp, sin_neg; ring).
  rewrite sum_over_scal. ring.
Qed.

Lemma reci_coeff_opp (k : vec3) :
  reci_coeff volume alpha (opp3 k) = reci_coeff volume alpha k.
Proof.
  destruct k as [[k0 k1] k2]. unfold reci_coeff, opp3, ksq_of.
  replace (- k0 * - k0 + - k1 * - k1 + - k2 * - k2)
    with (k0 * k0 + k1 * k1 + k2 * k2) by ring.
  reflexivity.
Qed.

Lemma reci_energy_term_opp (k : vec3) :
  reci_energy_term pos natom charges volume alpha (opp3 k) =
  reci_energy_term pos natom charges volume alpha k.
Proof.
  unfold reci_energy_term.
  rewrite reci_coeff_opp, cosfac_opp, sinfac_opp. ring.
Qed.

Lemma reci_gpos_term_opp (k : vec3) (m : Z) :
  reci_gpos_term pos natom charges volume alpha (opp3 k) m =
  reci_gpos_term pos natom charges volume alpha k m.
Proof.
  unfold reci_gpos_term. apply sum_over_ext_in. intros a _.
  unfold atom_factor.
  rewrite reci_coeff_opp, cosfac_opp, sinfac_opp, phase_opp, sin_neg, cos_neg.
  destruct k as [[k0 k1] k2]. unfold axis_weight, opp3. ring.
Qed.
End ReciInversion.

(** X5: one iteration of the innermost loop of [compute_ewald_reci] adds the
    same energy, and the same amount to every element of [gpos], for the
    triple (−j0, −j1, −j2) as for (j0, j1, j2). *)
Theorem reci_opposite_triples_agree (pos : buf) (natom : Z)
    (charges gvecs : buf) (volume alpha : R) (e : R) (gpos work : buf)
    (j0 j1 j2 : Z) :
  let st := {| r_energy := e; r_gpos := Some gpos; r_work := work |} in
  let body := reci_body pos natom charges gvecs volume alpha in
  r_energy (body st (- j0, - j1, - j2)%Z) = r_energy (body st (j0, j1, j2))
  /\ forall m : Z,
       contents (r_gpos (body st (- j0, - j1, - j2)%Z)) m =
       contents (r_gpos (body st (j0, j1, j2))) m.
Proof.
  cbv zeta. split.
  - rewrite !reci_body_energy, skipped_opp, wavevector_of_opp.
    now rewrite reci_energy_term_opp.
  - intro m.
    destruct (reci_body_gpos_Some pos natom charges gvecs volume alpha
                {| r_energy := e; r_gpos := Some gpos; r_work := work |}
                (- j0, - j1, - j2)%Z gpos eq_refl) as [g1 [Hg1 Hv1]].
    destruct (reci_body_gpos_Some pos natom charges gvecs volume alpha
                {| r_energy := e; r_gpos := Some gpos; r_work := work |}
                (j0, j1, j2) gpos eq_refl) as [g2 [Hg2 Hv2]].
    rewrite Hg1, Hg2. cbn [contents]. rewrite Hv1, Hv2.
    now rewrite skipped_opp, wavevector_of_opp, reci_gpos_term_opp.
Qed.

(** ** Sign of the reciprocal energy *)

Lemma sum_over_nonneg {A : Type} (l : list A) (f : A -> R) :
  (forall a, In a l -> 0 <= f a) -> 0 <= sum_over l f.
Proof.
  induction l as [| a l IH]; intro Hf.
  - rewrite sum_over_nil. lra.
  - rewrite sum_over_cons.
    pose proof (Hf a (or_introl eq_refl)).
    assert (0 <= sum_over l f) by (apply IH; intros b Hb; apply Hf; now right).
    lra.
Qed.

Lemma reci_coeff_positive (volume alpha : R) (k : vec3) :
  0 < volume -> ksq_of k <> 0 -> 0 < reci_coeff volume alpha k.
Proof.
  intros Hv Hk. unfold reci_coeff.
  assert (Hksq : 0 < ksq_of k).
  { destruct k as [[k0 k1] k2]. unfold ksq_of in *. nra. }
  pose proof PI_RGT_0 as Hpi.
  apply Rdiv_lt_0_compat; [| exact Hksq].
  apply Rmult_lt_0_compat; [| apply exp_pos].
  unfold M_TWO_PI. apply Rdiv_lt_0_compat; lra.
Qed.

(** X6: for a positive volume and a reciprocal cell in which no triple that
    is processed has a zero wavevector, the energy returned by
    [compute_ewald_reci] is not negative. *)
Theorem reci_energy_nonneg (pos : buf) (natom : Z) (charges gvecs : buf)
    (volume alpha : R) (gmax : ibuf) (gpos : option buf) (work : buf) :
  0 < volume ->
  (forall j, In j (kept_triples gmax) -> ksq_of (wavevector_of gvecs j) <> 0) ->
  0 <= r_energy (compute_ewald_reci pos natom charges gvecs volume alpha gmax
                                    gpos work).
Proof.
  intros Hv Hk. rewrite compute_ewald_reci_energy.
  apply sum_over_nonneg. intros j Hj. unfold reci_energy_term.
  pose proof (reci_coeff_positive volume alpha _ Hv (Hk j Hj)) as Hc.
  set (C := cosfac_of _ _ _ _). set (S := sinfac_of _ _ _ _).
  assert (0 <= C * C + S * S) by nra.
  apply Rmult_le_pos; lra.
Qed.

Lemma unit_cell_wavevectors_nonzero :
  forall j, In j (kept_triples gmax_x1) ->
            ksq_of (wavevector_of unit_cell j) <> 0.
Proof.
  intros j Hj. rewrite kept_triples_gmax_x1 in Hj.
  pose proof PI_RGT_0 as Hpi.
  destruct Hj as [<- | [<- | []]]; rewrite wavevector_unit_cell_x;
    unfold ksq_of; nra.
Qed.

Lemma reci_energy_nonneg_witness :
  0 <= r_energy (compute_ewald_reci two_atoms_pos 2 unit_charges unit_cell
                   1 1 gmax_x1 None zeros).
Proof.
  apply (reci_energy_nonneg two_atoms_pos 2 unit_charges unit_cell 1 1
           gmax_x1 None zeros).
  - lra.
  - exact unit_cell_wavevectors_nonzero.
Defined.

(** ** The gradient of the reciprocal sum under translation *)

Lemma atom_factor_translate (pos : buf) (natom : Z) (charges : buf)
    (volume alpha : R) (k shift : vec3) (a : Z) :
  atom_factor (translate pos shift) natom charges volume alpha k a =
  atom_factor pos natom charges volume alpha k a.
Proof.
  unfold atom_factor.
  rewrite cosfac_translate, sinfac_translate, phase_translate.
  rewrite sin_plus, cos_plus.
  pose proof (sin2_cos2 (dot3 k shift)) as H1. unfold Rsqr in H1.
  set (c := cos (dot3 k shift)) in *. set (s := sin (dot3 k shift)) in *.
  set (C := cosfac_of k pos charges natom).
  set (S := sinfac_of k pos charges natom).
  set (sp := sin (phase k pos a)). set (cp := cos (phase k pos a)).
  set (co := reci_coeff volume alpha k). set (q := charges a).
  replace (co * ((c * C - s * S) * (-2 * (q * (sp * c + cp * s)))
                 + (s * C + c * S) * (2 * (q * (cp * c - sp * s)))))
    with ((s * s + c * c)
          * (co * (C * (-2 * (q * sp)) + S * (2 * (q * cp))))) by ring.
  rewrite H1. ring.
Qed.

(** X7: what [compute_ewald_reci] adds to each element of [gpos] does not
    change when one vector is added to the position of every atom. *)
Theorem reci_gradient_translation_invariant (pos : buf) (natom : Z)
    (charges gvecs : buf) (volume alpha : R) (gmax : ibuf)
    (gpos work : buf) (shift : vec3) (m : Z) :
  contents (r_gpos (compute_ewald_reci (translate pos shift) natom charges
                      gvecs volume alpha gmax (Some gpos) work)) m =
  contents (r_gpos (compute_ewald_reci pos natom charges gvecs volume alpha
                      gmax (Some gpos) work)) m.
Proof.
  destruct (compute_ewald_reci_gpos pos natom charges gvecs volume alpha
              gmax gpos work) as [g1 [Hg1 Hv1]].
  destruct (compute_ewald_reci_gpos (translate pos shift) natom charges gvecs
              volume alpha gmax gpos work) as [g2 [Hg2 Hv2]].
  rewrite Hg1, Hg2. cbn [contents]. rewrite Hv1, Hv2. f_equal.
  apply sum_over_ext_in. intros j _. unfold reci_gpos_term.
  apply sum_over_ext_in. intros a _. now rewrite atom_factor_translate.
Qed.

(** ** Periodicity of the reciprocal sum *)

Lemma cos_period_Z (x : R) (n : Z) : cos (x + 2 * PI * IZR n) = cos x.
Proof.
  destruct (Z_le_gt_dec 0 n) as [Hn | Hn].
  - rewrite <- (Z2Nat.id n Hn), <- INR_IZR_INZ.
    replace (x + 2 * PI * INR (Z.to_nat n))
      with (x + 2 * INR (Z.to_nat n) * PI) by ring.
    apply cos_period.
  - rewrite <- (cos_period (x + 2 * PI * IZR n) (Z.to_nat (- n))).
    f_equal. rewrite INR_IZR_INZ, Z2Nat.id by lia. rewrite opp_IZR. ring.
Qed.

Lemma sin_period_Z (x : R) (n : Z) : sin (x + 2 * PI * IZR n) = sin x.
Proof.
  destruct (Z_le_gt_dec 0 n) as [Hn | Hn].
  - rewrite <- (Z2Nat.id n Hn), <- INR_IZR_INZ.
    replace (x + 2 * PI * INR (Z.to_nat n))
      with (x + 2 * INR (Z.to_nat n) * PI) by ring.
    apply sin_period.
  - rewrite <- (sin_period (x + 2 * PI * IZR n) (Z.to_nat (- n))).
    f_equal. rewrite INR_IZR_INZ, Z2Nat.id by lia. rewrite opp_IZR. ring.
Qed.

Lemma move_atom_at (pos : buf) (atom : Z) (shift : vec3) (a b : Z) :
  (0 <= b < 3)%Z ->
  move_atom pos atom shift (3 * a + b)%Z =
  pos (3 * a + b)%Z + (if (a =? atom)%Z then component shift b else 0).
Proof.
  intro Hb. unfold move_atom.
  destruct (atom_index_mod a b Hb) as [-> ->].
  destruct (a =? atom)%Z; ring.
Qed.

Lemma phase_move_atom (k : vec3) (pos : buf) (atom : Z) (shift : vec3)
    (a : Z) :
  phase k (move_atom pos atom shift) a =
  phase k pos a + (if (a =? atom)%Z then dot3 k shift else 0).
Proof.
  destruct k as [[k0 k1] k2], shift as [[s0 s1] s2].
  unfold phase, dot3.
  replace (move_atom pos atom (s0, s1, s2) (3 * a)%Z)
    with (move_atom pos atom (s0, s1, s2) (3 * a + 0)%Z)
    by (f_equal; lia).
  rewrite !move_atom_at by lia.
  replace (3 * a + 0)%Z with (3 * a)%Z by lia.
  destruct (a =? atom)%Z; unfold component; cbn [Z.eqb Pos.eqb]; ring.
Qed.

(** The scalar product of a wavevector with a vector whose products with
    the rows of [gvecs] are the integers n0, n1, n2. *)
Lemma wavevector_dot_lattice (gvecs : buf) (shift : vec3) (n0 n1 n2 : Z)
    (j : Z * Z * Z) :
  dot3 (gvecs_row gvecs 0) shift = IZR n0 ->
  dot3 (gvecs_row gvecs 1) shift = IZR n1 ->
  dot3 (gvecs_row gvecs 2) shift = IZR n2 ->
  dot3 (wavevector_of gvecs j) shift =
  2 * PI * IZR (let '(j0, j1, j2) := j in j0 * n0 + j1 * n1 + j2 * n2).
Proof.
  destruct j as [[j0 j1] j2], shift as [[s0 s1] s2].
  unfold gvecs_row, dot3, wavevector_of, wavevector, M_TWO_PI.
  cbn [Z.mul Z.add Pos.mul Pos.add Pos.succ]. intros H0 H1 H2.
  rewrite !plus_IZR, !mult_IZR, <- H0, <- H1, <- H2. ring.
Qed.

Section ReciPeriodic.
Variables (pos : buf) (natom : Z) (charges gvecs : buf) (volume alpha : R).
Variables (atom : Z) (shift : vec3) (n0 n1 n2 : Z).
Hypothesis H0 : dot3 (gvecs_row gvecs 0) shift = IZR n0.
Hypothesis H1 : dot3 (gvecs_row gvecs 1) shift = IZR n1.
Hypothesis H2 : dot3 (gvecs_row gvecs 2) shift = IZR n2.

Lemma cos_phase_move_atom (j : Z * Z * Z) (a : Z) :
  cos (phase (wavevector_of gvecs j) (move_atom pos atom shift) a) =
  cos (phase (wavevector_of gvecs j) pos a).
Proof.
  rewrite phase_move_atom. destruct (a =? atom)%Z.
  - rewrite (wavevector_dot_lattice gvecs shift n0 n1 n2 j H0 H1 H2).
    apply cos_period_Z.
  - now rewrite Rplus_0_r.
Qed.

Lemma sin_phase_move_atom (j : Z * Z * Z) (a : Z) :
  sin (phase (wavevector_of gvecs j) (move_atom pos atom shift) a) =
  sin (phase (wavevector_of gvecs j) pos a).
Proof.
  rewrite phase_move_atom. destruct (a =? atom)%Z.
  - rewrite (wavevector_dot_lattice gvecs shift n0 n1 n2 j H0 H1 H2).
    apply sin_period_Z.
  - now rewrite Rplus_0_r.
Qed.

Lemma cosfac_move_atom (j : Z * Z * Z) :
  cosfac_of (wavevector_of gvecs j) (move_atom pos atom shift) charges natom
  = cosfac_of (wavevector_of gvecs j) pos charges natom.
Proof.
  unfold cosfac_of. apply sum_over_ext_in. intros a _.
  now rewrite cos_phase_move_atom.
Qed.

Lemma sinfac_move_atom (j : Z * Z * Z) :
  sinfac_of (wavevector_of gvecs j) (move_atom pos atom shift) charges natom
  = sinfac_of (wavevector_of gvecs j) pos charges natom.
Proof.
  unfold sinfac_of. apply sum_over_ext_in. intros a _.
  now rewrite sin_phase_move_atom.
Qed.
End ReciPeriodic.

(** X8: when one atom is moved by a vector whose scalar products with the
    three rows of [gvecs] are integers (a vector of the real-space lattice),
    [compute_ewald_reci] returns the same energy and adds the same amount
    to every element of [gpos]. *)
Theorem reci_lattice_periodic (pos : buf) (natom : Z) (charges gvecs : buf)
    (volume alpha : R) (gmax : ibuf) (gpos work : buf)
    (atom : Z) (shift : vec3) (n0 n1 n2 : Z) :
  dot3 (gvecs_row gvecs 0) shift = IZR n0 ->
  dot3 (gvecs_row gvecs 1) shift = IZR n1 ->
  dot3 (gvecs_row gvecs 2) shift = IZR n2 ->
  let call := compute_ewald_reci pos natom charges gvecs volume alpha gmax
                (Some gpos) work in
  let moved := compute_ewald_reci (move_atom pos atom shift) natom charges
                 gvecs volume alpha gmax (Some gpos) work in
  r_energy moved = r_energy call
  /\ forall m : Z, contents (r_gpos moved) m = contents (r_gpos call) m.
Proof.
  intros H0 H1 H2. cbv zeta. split.
  - rewrite !compute_ewald_reci_energy. apply sum_over_ext_in. intros j _.
    unfold reci_energy_term.
    now rewrite (cosfac_move_atom pos natom charges gvecs atom shift
                   n0 n1 n2 H0 H1 H2),
                (sinfac_move_atom pos natom charges gvecs atom shift
                   n0 n1 n2 H0 H1 H2).
  - intro m.
    destruct (compute_ewald_reci_gpos pos natom charges gvecs volume alpha
                gmax gpos work) as [g1 [Hg1 Hv1]].
    destruct (compute_ewald_reci_gpos (move_atom pos atom shift) natom
                charges gvecs volume alpha gmax gpos work)
      as [g2 [Hg2 Hv2]].
    rewrite Hg1, Hg2. cbn [contents]. rewrite Hv1, Hv2. f_equal.
    apply sum_over_ext_in. intros j _. unfold reci_gpos_term.
    apply sum_over_ext_in. intros a _. unfold atom_factor.
    now rewrite (cosfac_move_atom pos natom charges gvecs atom shift
                   n0 n1 n2 H0 H1 H2),
                (sinfac_move_atom pos natom charges gvecs atom shift
                   n0 n1 n2 H0 H1 H2),
                (cos_phase_move_atom pos gvecs atom shift n0 n1 n2 H0 H1 H2),
                (sin_phase_move_atom pos gvecs atom shift n0 n1 n2 H0 H1 H2).
Qed.

Lemma reci_lattice_periodic_witness :
  r_energy (compute_ewald_reci (move_atom two_atoms_pos 1 (1, 0, 0)) 2
              unit_charges unit_cell 1 1 gmax_x1 (Some zeros) zeros) =
  r_energy (compute_ewald_reci two_atoms_pos 2 unit_charges unit_cell 1 1
              gmax_x1 (Some zeros) zeros).
Proof.
  apply (reci_lattice_periodic two_atoms_pos 2 unit_charges unit_cell 1 1
           gmax_x1 zeros zeros 1 (1, 0, 0) 1 0 0);
    unfold dot3, gvecs_row, unit_cell;
    cbn [Z.mul Z.add Pos.mul Pos.add Pos.succ Z.eqb Pos.eqb orb]; lra.
Defined.

(** ** The gradient of the reciprocal sum under a renumbering of the atoms *)

Section ReciPermutation.
Variables (pos : buf) (natom : Z) (charges : buf) (volume alpha : R).
Variable sigma : Z -> Z.
Hypothesis Hperm : Permutation (map sigma (upto natom)) (upto natom).

Lemma cosfac_permute (k : vec3) :
  cosfac_of k (permute_pos sigma pos) (permute_charges sigma charges) natom
  = cosfac_of k pos charges natom.
Proof.
  unfold cosfac_of.
  rewrite <- (sum_over_perm _ _
                (fun a => charges a * cos (phase k pos a)) Hperm).
  rewrite sum_over_map. apply sum_over_ext_in. intros a _.
  unfold permute_charges. now rewrite phase_permute.
Qed.

Lemma sinfac_permute (k : vec3) :
  sinfac_of k (permute_pos sigma pos) (permute_charges sigma charges) natom
  = sinfac_of k pos charges natom.
Proof.
  unfold sinfac_of.
  rewrite <- (sum_over_perm _ _
                (fun a => charges a * sin (phase k pos a)) Hperm).
  rewrite sum_over_map. apply sum_over_ext_in. intros a _.
  unfold permute_charges. now rewrite phase_permute.
Qed.

Lemma atom_factor_permute (k : vec3) (a : Z) :
  atom_factor (permute_pos sigma pos) natom (permute_charges sigma charges)
              volume alpha k a =
  atom_factor pos natom charges volume alpha k (sigma a).
Proof.
  unfold atom_factor.
  rewrite cosfac_permute, sinfac_permute, phase_permute.
  reflexivity.
Qed.

Lemma sigma_in_range (a : Z) :
  In a (upto natom) -> In (sigma a) (upto natom).
Proof.
  intro Ha. apply (Permutation_in _ Hperm). now apply in_map.
Qed.
End ReciPermutation.

(** X9: when positions and charges are renumbered by a permutation [sigma]
    of the atom indices, what [compute_ewald_reci] adds to the gradient of
    atom [a] is what it added to the gradient of atom [sigma a] before. *)
Theorem reci_gradient_permuted (pos : buf) (natom : Z) (charges gvecs : buf)
    (volume alpha : R) (gmax : ibuf) (gpos work : buf) (sigma : Z -> Z)
    (a b : Z) :
  Permutation (map sigma (upto natom)) (upto natom) ->
  (0 <= a < natom)%Z -> (0 <= b < 3)%Z ->
  let call := compute_ewald_reci pos natom charges gvecs volume alpha gmax
                (Some gpos) work in
  let renumbered :=
    compute_ewald_reci (permute_pos sigma pos) natom
      (permute_charges sigma charges) gvecs volume alpha gmax
      (Some gpos) work in
  contents (r_gpos renumbered) (3 * a + b)%Z - gpos (3 * a + b)%Z =
  contents (r_gpos call) (3 * sigma a + b)%Z - gpos (3 * sigma a + b)%Z.
Proof.
  intros Hperm Ha Hb. cbv zeta.
  apply In_upto in Ha.
  pose proof (sigma_in_range natom sigma Hperm a Ha) as Hsa.
  destruct (compute_ewald_reci_gpos pos natom charges gvecs volume alpha
              gmax gpos work) as [g1 [Hg1 Hv1]].
  destruct (compute_ewald_reci_gpos (permute_pos sigma pos) natom
              (permute_charges sigma charges) gvecs volume alpha gmax gpos
              work) as [g2 [Hg2 Hv2]].
  rewrite Hg1, Hg2. cbn [contents]. rewrite Hv1, Hv2.
  match goal with
  | |- ?x + ?s2 - ?x = ?y + ?s1 - ?y =>
      replace (x + s2 - x) with s2 by ring;
      replace (y + s1 - y) with s1 by ring
  end.
  apply sum_over_ext_in. intros j _.
  rewrite !reci_gpos_term_atom by assumption.
  now rewrite (atom_factor_permute pos natom charges volume alpha sigma Hperm).
Qed.

Lemma swap01_permutes_two : Permutation (map swap01 (upto 2)) (upto 2).
Proof. apply perm_swap. Qed.

Lemma reci_gradient_permuted_witness :
  contents (r_gpos (compute_ewald_reci (permute_pos swap01 two_atoms_pos) 2
                      (permute_charges swap01 unit_charges) unit_cell 1 1
                      gmax_x1 (Some zeros) zeros)) (3 * 0 + 0)%Z
  - zeros (3 * 0 + 0)%Z =
  contents (r_gpos (compute_ewald_reci two_atoms_pos 2 unit_charges unit_cell
                      1 1 gmax_x1 (Some zeros) zeros)) (3 * swap01 0 + 0)%Z
  - zeros (3 * swap01 0 + 0)%Z.
Proof.
  apply (reci_gradient_permuted two_atoms_pos 2 unit_charges unit_cell 1 1
           gmax_x1 zeros zeros swap01 0 0 swap01_permutes_two); lia.
Defined.

(** ** [compute_ewald_corr] and the order of the scaling rows *)

Section CorrRows.
Variables (mic : mic_type) (pos : buf) (center_index : Z).
Variables (charges rvecs gvecs : buf) (alpha : R).

(** The three results of a call, element by element. *)
Lemma corr_call_energy (scaling : list scaling_row_type)
    (gpos vtens : option buf) :
  c_energy (compute_ewald_corr mic pos center_index charges rvecs gvecs alpha
              scaling gpos vtens) =
  0 - alpha / M_SQRT_PI * charges center_index * charges center_index
  - sum_over scaling
      (fun row =>
         if contributes center_index row
         then row_fac center_index charges row
              * row_pot mic pos center_index rvecs gvecs alpha row
         else 0).
Proof. unfold compute_ewald_corr. now rewrite corr_fold_energy. Qed.

Lemma corr_call_gpos (scaling : list scaling_row_type)
    (gpos vtens : option buf) (m : Z) :
  contents (c_gpos (compute_ewald_corr mic pos center_index charges rvecs
                      gvecs alpha scaling gpos vtens)) m =
  match gpos with
  | Some g =>
      g m
      + sum_over scaling
          (fun row =>
             if contributes center_index row
             then pair_weight (row_delta mic pos center_index rvecs gvecs row)
                              center_index (i row) m
                  * row_g mic pos center_index charges rvecs gvecs alpha row
             else 0)
  | None => 0
  end.
Proof.
  unfold compute_ewald_corr. rewrite corr_fold_gpos. cbn [c_gpos].
  destruct gpos as [g |]; cbn [option_map contents]; [| reflexivity].
  apply gpos_step_fold.
Qed.

Lemma corr_call_vtens (scaling : list scaling_row_type)
    (gpos vtens : option buf) (m : Z) :
  contents (c_vtens (compute_ewald_corr mic pos center_index charges rvecs
                       gvecs alpha scaling gpos vtens)) m =
  match vtens with
  | Some v =>
      v m
      + sum_over scaling
          (fun row =>
             if contributes center_index row
             then outer_weight (row_delta mic pos center_index rvecs gvecs row)
                               m
                  * row_g mic pos center_index charges rvecs gvecs alpha row
             else 0)
  | None => 0
  end.
Proof.
  unfold compute_ewald_corr. rewrite corr_fold_vtens. cbn [c_vtens].
  destruct vtens as [v |]; cbn [option_map contents]; [| reflexivity].
  apply vtens_step_fold.
Qed.
End CorrRows.

(** X10: the order of the scaling rows does not matter: for two lists that
    are permutations of each other, [compute_ewald_corr] returns the same
    energy and the same value in every element of [gpos] and [vtens]. *)
Theorem corr_row_order_irrelevant (mic : mic_type) (pos : buf)
    (center_index : Z) (charges rvecs gvecs : buf) (alpha : R)
    (scaling scaling' : list scaling_row_type) (gpos vtens : option buf) :
  Permutation scaling scaling' ->
  let call := compute_ewald_corr mic pos center_index charges rvecs gvecs
                alpha scaling gpos vtens in
  let call' := compute_ewald_corr mic pos center_index charges rvecs gvecs
                 alpha scaling' gpos vtens in
  c_energy call' = c_energy call
  /\ (forall m : Z, contents (c_gpos call') m = contents (c_gpos call) m)
  /\ (forall m : Z, contents (c_vtens call') m = contents (c_vtens call) m).
Proof.
  intro Hperm. cbv zeta. split; [| split].
  - rewrite !corr_call_energy. f_equal. symmetry. now apply sum_over_perm.
  - intro m. rewrite !corr_call_gpos. destruct gpos; [| reflexivity].
    f_equal. symmetry. now apply sum_over_perm.
  - intro m. rewrite !corr_call_vtens. destruct vtens; [| reflexivity].
    f_equal. symmetry. now apply sum_over_perm.
Qed.

Lemma corr_row_order_irrelevant_witness :
  c_energy (compute_ewald_corr mic_none two_atoms_pos 1 unit_charges
              unit_cell unit_cell 1
              [{| i := 1; scale := 0 |}; {| i := 0; scale := 0 |}]
              None None) =
  c_energy (compute_ewald_corr mic_none two_atoms_pos 1 unit_charges
              unit_cell unit_cell 1
              [{| i := 0; scale := 0 |}; {| i := 1; scale := 0 |}]
              None None).
Proof.
  apply (corr_row_order_irrelevant mic_none two_atoms_pos 1 unit_charges
           unit_cell unit_cell 1
           [{| i := 0; scale := 0 |}; {| i := 1; scale := 0 |}]
           [{| i := 1; scale := 0 |}; {| i := 0; scale := 0 |}] None None).
  apply perm_swap.
Defined.

(** ** What [compute_ewald_corr] writes, and where *)

Lemma outer_weight_outside (delta : vec3) (m : Z) :
  (m < 0 \/ 9 <= m)%Z -> outer_weight delta m = 0.
Proof.
  intro Hm. destruct delta as [[d0 d1] d2]. unfold outer_weight.
  rewrite !hit_other by lia. ring.
Qed.

Lemma pair_weight_outside (delta : vec3) (center_index other_index m : Z) :
  (m < 3 * center_index \/ 3 * center_index + 3 <= m)%Z ->
  (m < 3 * other_index \/ 3 * other_index + 3 <= m)%Z ->
  pair_weight delta center_index other_index m = 0.
Proof.
  intros Hc Ho. destruct delta as [[d0 d1] d2]. unfold pair_weight.
  rewrite !hit_other by lia. ring.
Qed.

(** X11: [compute_ewald_corr] writes [vtens] only at its nine elements, and
    [gpos] only at the three elements of the center atom and of the other
    atom of each row with [i < center_index]; in particular no element of
    [gpos] from [3·center_index + 3] on is written. *)
Theorem corr_writes_within_bounds (mic : mic_type) (pos : buf)
    (center_index : Z) (charges rvecs gvecs : buf) (alpha : R)
    (scaling : list scaling_row_type) (gpos vtens : buf) :
  let call := compute_ewald_corr mic pos center_index charges rvecs gvecs
                alpha scaling (Some gpos) (Some vtens) in
  (forall m : Z, (m < 0 \/ 9 <= m)%Z -> contents (c_vtens call) m = vtens m)
  /\ (forall m : Z,
         (m < 3 * center_index \/ 3 * center_index + 3 <= m)%Z ->
         (forall row, In row scaling -> (i row < center_index)%Z ->
                      (m < 3 * i row \/ 3 * i row + 3 <= m)%Z) ->
         contents (c_gpos call) m = gpos m)
  /\ (forall m : Z, (3 * center_index + 3 <= m)%Z ->
                    contents (c_gpos call) m = gpos m).
Proof.
  cbv zeta. split; [| split].
  - intros m Hm. rewrite corr_call_vtens, sum_over_zero; [ring |].
    intros row _. rewrite outer_weight_outside by exact Hm.
    destruct (contributes center_index row); ring.
  - intros m Hc Hrows. rewrite corr_call_gpos, sum_over_zero; [ring |].
    intros row Hrow. destruct (contributes center_index row) eqn:Hcon;
      [| reflexivity].
    rewrite contributes_ltb in Hcon. apply Z.ltb_lt in Hcon.
    rewrite pair_weight_outside; [ring | exact Hc | now apply Hrows].
  - intros m Hm. rewrite corr_call_gpos, sum_over_zero; [ring |].
    intros row Hrow. destruct (contributes center_index row) eqn:Hcon;
      [| reflexivity].
    rewrite contributes_ltb in Hcon. apply Z.ltb_lt in Hcon.
    rewrite pair_weight_outside; [ring | lia | lia].
Qed.

(** ** The gradient added by [compute_ewald_corr] sums to zero *)

Lemma sum_over_swap {A B : Type} (la : list A) (lb : list B)
    (f : A -> B -> R) :
  sum_over la (fun a => sum_over lb (fun b => f a b)) =
  sum_over lb (fun b => sum_over la (fun a => f a b)).
Proof.
  induction la as [| a la IH].
  - rewrite sum_over_nil. symmetry. apply sum_over_zero. reflexivity.
  - rewrite sum_over_cons, IH, <- sum_over_plus.
    apply sum_over_ext_in. intros b _. now rewrite sum_over_cons.
Qed.

Lemma pair_weight_atom (delta : vec3) (center_index other_index a b : Z) :
  (0 <= b < 3)%Z ->
  pair_weight delta center_index other_index (3 * a + b)%Z =
  (hit a center_index - hit a other_index) * component delta b.
Proof.
  intro Hb. destruct delta as [[d0 d1] d2].
  assert (Hb' : b = 0%Z \/ b = 1%Z \/ b = 2%Z) by lia.
  unfold pair_weight, component.
  destruct Hb' as [-> | [-> | ->]]; cbn [Z.eqb Pos.eqb]; decide_hits; ring.
Qed.

Lemma pair_weight_sum_zero (delta : vec3) (natom center_index other_index b : Z) :
  (0 <= other_index < center_index)%Z -> (center_index < natom)%Z ->
  (0 <= b < 3)%Z ->
  sum_over (upto natom)
    (fun a => pair_weight delta center_index other_index (3 * a + b)%Z) = 0.
Proof.
  intros Ho Hc Hb.
  rewrite (sum_over_ext_in _ _
             (fun a => hit a center_index * component delta b
                       + -1 * (hit a other_index * component delta b)))
    by (intros; rewrite pair_weight_atom by exact Hb; ring).
  rewrite sum_over_plus, sum_over_scal.
  rewrite (sum_over_hit (upto natom) center_index
             (fun _ => component delta b)), 
          (sum_over_hit (upto natom) other_index
             (fun _ => component delta b)).
  - ring.
  - apply NoDup_upto.
  - apply In_upto. lia.
  - apply NoDup_upto.
  - apply In_upto. lia.
Qed.

(** X12: when the center atom and the other atoms of the rows are atoms of
    a system of [natom] atoms, what one call of [compute_ewald_corr] adds to
    [gpos] sums to zero over the atoms, along each axis. *)
Theorem corr_gradient_sums_to_zero (mic : mic_type) (pos : buf)
    (natom center_index : Z) (charges rvecs gvecs : buf) (alpha : R)
    (scaling : list scaling_row_type) (gpos : buf) (vtens : option buf)
    (b : Z) :
  (center_index < natom)%Z ->
  (forall row, In row scaling -> (0 <= i row)%Z) ->
  (0 <= b < 3)%Z ->
  sum_over (upto natom)
    (fun a =>
       contents (c_gpos (compute_ewald_corr mic pos center_index charges
                           rvecs gvecs alpha scaling (Some gpos) vtens))
                (3 * a + b)%Z
       - gpos (3 * a + b)%Z) = 0.
Proof.
  intros Hc Hrows Hb.
  rewrite (sum_over_ext_in _ _
             (fun a =>
                sum_over scaling
                  (fun row =>
                     if contributes center_index row
                     then pair_weight
                            (row_delta mic pos center_index rvecs gvecs row)
                            center_index (i row) (3 * a + b)%Z
                          * row_g mic pos center_index charges rvecs gvecs
                                  alpha row
                     else 0)))
    by (intros; rewrite corr_call_gpos; ring).
  rewrite sum_over_swap. apply sum_over_zero. intros row Hrow.
  destruct (contributes center_index row) eqn:Hcon.
  - rewrite contributes_ltb in Hcon. apply Z.ltb_lt in Hcon.
    rewrite (sum_over_ext_in _ _
               (fun a =>
                  row_g mic pos center_index charges rvecs gvecs alpha row
                  * pair_weight
                      (row_delta mic pos center_index rvecs gvecs row)
                      center_index (i row) (3 * a + b)%Z))
      by (intros; ring).
    rewrite sum_over_scal, pair_weight_sum_zero; [ring | | exact Hc | exact Hb].
    split; [now apply Hrows | exact Hcon].
  - apply sum_over_zero. reflexivity.
Qed.

Lemma corr_gradient_sums_to_zero_witness :
  sum_over (upto 2)
    (fun a =>
       contents (c_gpos (compute_ewald_corr mic_none two_atoms_pos 1
                           unit_charges unit_cell unit_cell 1
                           [{| i := 0; scale := 0 |}] (Some zeros) None))
                (3 * a + 0)%Z
       - zeros (3 * a + 0)%Z) = 0.
Proof.
  apply (corr_gradient_sums_to_zero mic_none two_atoms_pos 2 1 unit_charges
           unit_cell unit_cell 1 [{| i := 0; scale := 0 |}] zeros None 0).
  - lia.
  - intros row [<- | []]. cbn. lia.
  - lia.
Defined.

(** ** Arrays are accumulated into *)

(** X13: both routines add to the arrays they are given: the value left in
    an element of [gpos] (or [vtens]) is the value found there plus what
    the same call leaves in a zero-filled array; and the energy returned by
    [compute_ewald_corr] does not depend on which arrays are passed. *)
Theorem arrays_are_accumulated (mic : mic_type) (pos : buf)
    (natom center_index : Z) (charges rvecs gvecs : buf) (volume alpha : R)
    (gmax : ibuf) (scaling : list scaling_row_type)
    (gpos vtens work : buf) (gpos_opt vtens_opt : option buf) (m : Z) :
  contents (r_gpos (compute_ewald_reci pos natom charges gvecs volume alpha
                      gmax (Some gpos) work)) m =
  gpos m
  + contents (r_gpos (compute_ewald_reci pos natom charges gvecs volume alpha
                        gmax (Some zeros) work)) m
  /\ contents (c_gpos (compute_ewald_corr mic pos center_index charges rvecs
                         gvecs alpha scaling (Some gpos) vtens_opt)) m =
     gpos m
     + contents (c_gpos (compute_ewald_corr mic pos center_index charges
                           rvecs gvecs alpha scaling (Some zeros) None)) m
  /\ contents (c_vtens (compute_ewald_corr mic pos center_index charges rvecs
                          gvecs alpha scaling gpos_opt (Some vtens))) m =
     vtens m
     + contents (c_vtens (compute_ewald_corr mic pos center_index charges
                            rvecs gvecs alpha scaling None (Some zeros))) m
  /\ c_energy (compute_ewald_corr mic pos center_index charges rvecs gvecs
                 alpha scaling gpos_opt vtens_opt) =
     c_energy (compute_ewald_corr mic pos center_index charges rvecs gvecs
                 alpha scaling None None).
Proof.
  split; [| split; [| split]].
  - destruct (compute_ewald_reci_gpos pos natom charges gvecs volume alpha
                gmax gpos work) as [g1 [Hg1 Hv1]].
    destruct (compute_ewald_reci_gpos pos natom charges gvecs volume alpha
                gmax zeros work) as [g2 [Hg2 Hv2]].
    rewrite Hg1, Hg2. cbn [contents]. rewrite Hv1, Hv2. unfold zeros. ring.
  - rewrite !corr_call_gpos. unfold zeros. ring.
  - rewrite !corr_call_vtens. unfold zeros. ring.
  - now rewrite !corr_call_energy.
Qed.

(** ** [compute_ewald_corr] under translation *)

Lemma raw_delta_translate (pos : buf) (shift : vec3)
    (center_index other_index : Z) :
  raw_delta (translate pos shift) center_index other_index =
  raw_delta pos center_index other_index.
Proof.
  unfold raw_delta, translate.
  replace (3 * center_index)%Z with (3 * center_index + 0)%Z by lia.
  replace (3 * other_index)%Z with (3 * other_index + 0)%Z by lia.
  destruct (atom_index_mod center_index 0) as [-> _]; [lia |].
  destruct (atom_index_mod other_index 0) as [-> _]; [lia |].
  replace (3 * center_index + 0 + 1)%Z with (3 * center_index + 1)%Z by lia.
  replace (3 * center_index + 0 + 2)%Z with (3 * center_index + 2)%Z by lia.
  replace (3 * other_index + 0 + 1)%Z with (3 * other_index + 1)%Z by lia.
  replace (3 * other_index + 0 + 2)%Z with (3 * other_index + 2)%Z by lia.
  destruct (atom_index_mod center_index 1) as [-> _]; [lia |].
  destruct (atom_index_mod other_index 1) as [-> _]; [lia |].
  destruct (atom_index_mod center_index 2) as [-> _]; [lia |].
  destruct (atom_index_mod other_index 2) as [-> _]; [lia |].
  f_equal; [f_equal |]; ring.
Qed.

(** X14: [compute_ewald_corr] reads the positions only through the
    differences between the center atom and the other atoms: when one
    vector is added to the position of every atom, the call returns the
    same energy and the same arrays. *)
Theorem corr_translation_invariant (mic : mic_type) (pos : buf)
    (center_index : Z) (charges rvecs gvecs : buf) (alpha : R)
    (scaling : list scaling_row_type) (gpos vtens : option buf)
    (shift : vec3) :
  compute_ewald_corr mic (translate pos shift) center_index charges rvecs
    gvecs alpha scaling gpos vtens =
  compute_ewald_corr mic pos center_index charges rvecs gvecs alpha scaling
    gpos vtens.
Proof.
  unfold compute_ewald_corr. apply fold_left_ext. intros st row.
  unfold corr_body, pair_delta. now rewrite raw_delta_translate.
Qed.

(** ** Virial and gradient of one pair *)

(** X15: for a row that contributes, what the loop body adds to entry
    (a,b) of [vtens] is component a of the displacement [delta] times what
    it adds to component b of the center atom's entry of [gpos]. *)
Theorem corr_virial_from_gradient (mic : mic_type) (pos : buf)
    (center_index : Z) (charges rvecs gvecs : buf) (alpha : R)
    (e : R) (gpos vtens : buf) (row : scaling_row_type) (a b : Z) :
  (i row < center_index)%Z -> (0 <= a < 3)%Z -> (0 <= b < 3)%Z ->
  let st := {| c_energy := e; c_gpos := Some gpos; c_vtens := Some vtens |} in
  let st' := corr_body mic pos center_index charges rvecs gvecs alpha st row in
  contents (c_vtens st') (3 * a + b)%Z - vtens (3 * a + b)%Z =
  component (row_delta mic pos center_index rvecs gvecs row) a
  * (contents (c_gpos st') (3 * center_index + b)%Z
     - gpos (3 * center_index + b)%Z).
Proof.
  intros Hlt Ha Hb. cbv zeta. rewrite corr_body_eq.
  cbn [c_gpos c_vtens option_map contents].
  unfold row_gpos_step, row_vtens_step.
  rewrite (contributes_lt _ _ Hlt), vtens_pair_eq, gpos_pair_eq.
  rewrite (outer_weight_entry _ a b Ha Hb).
  rewrite (pair_weight_center _ _ _ b Hlt Hb). ring.
Qed.

Lemma corr_virial_from_gradient_witness :
  contents (c_vtens (corr_body mic_none two_atoms_pos 1 unit_charges
                       unit_cell unit_cell 1
                       {| c_energy := 0; c_gpos := Some zeros;
                          c_vtens := Some zeros |}
                       {| i := 0; scale := 0 |})) (3 * 0 + 0)%Z
  - zeros (3 * 0 + 0)%Z =
  component (row_delta mic_none two_atoms_pos 1 unit_cell unit_cell
               {| i := 0; scale := 0 |}) 0
  * (contents (c_gpos (corr_body mic_none two_atoms_pos 1 unit_charges
                         unit_cell unit_cell 1
                         {| c_energy := 0; c_gpos := Some zeros;
                            c_vtens := Some zeros |}
                         {| i := 0; scale := 0 |})) (3 * 1 + 0)%Z
     - zeros (3 * 1 + 0)%Z).
Proof.
  apply (corr_virial_from_gradient mic_none two_atoms_pos 1 unit_charges
           unit_cell unit_cell 1 0 zeros zeros {| i := 0; scale := 0 |} 0 0);
    cbn; lia.
Defined.

(** ** Each pair is counted once *)

(** X16: for two atoms [other < center] that list each other with the same
    scale, the call for [center] holds the pair term and the call for
    [other] holds none: the two energies add up to the two self terms and
    one pair term. *)
Theorem corr_pair_counted_once (mic : mic_type) (pos : buf)
    (center other : Z) (charges rvecs gvecs : buf) (alpha s : R) :
  (other < center)%Z ->
  let d := norm3 (pair_delta mic pos center other rvecs gvecs) in
  c_energy (compute_ewald_corr mic pos center charges rvecs gvecs alpha
              [{| i := other; scale := s |}] None None)
  + c_energy (compute_ewald_corr mic pos other charges rvecs gvecs alpha
                [{| i := center; scale := s |}] None None)
  = - (alpha / sqrt PI * charges center ^ 2)
    - alpha / sqrt PI * charges other ^ 2
    - (1 - s) * charges center * charges other * erf (alpha * d) / d.
Proof.
  intros Hlt d. rewrite !corr_call_energy.
  unfold sum_over. cbn [fold_right].
  rewrite (contributes_lt center {| i := other; scale := s |}) by exact Hlt.
  assert (Hno : contributes other {| i := center; scale := s |} = false).
  { rewrite contributes_ltb. cbn [i]. apply Z.ltb_ge. lia. }
  rewrite Hno.
  unfold row_fac, row_pot, row_d, row_delta. cbn [i scale]. fold d.
  unfold M_SQRT_PI, Rdiv. ring.
Qed.

Lemma corr_pair_counted_once_witness :
  c_energy (compute_ewald_corr mic_none two_atoms_pos 1 unit_charges
              unit_cell unit_cell 1 [{| i := 0; scale := 0 |}] None None)
  + c_energy (compute_ewald_corr mic_none two_atoms_pos 0 unit_charges
                unit_cell unit_cell 1 [{| i := 1; scale := 0 |}] None None)
  = - (1 / sqrt PI * unit_charges 1%Z ^ 2)
    - 1 / sqrt PI * unit_charges 0%Z ^ 2
    - (1 - 0) * unit_charges 1%Z * unit_charges 0%Z
      * erf (1 * norm3 (pair_delta mic_none two_atoms_pos 1 0 unit_cell
                          unit_cell))
      / norm3 (pair_delta mic_none two_atoms_pos 1 0 unit_cell unit_cell).
Proof.
  apply (corr_pair_counted_once mic_none two_atoms_pos 1 0 unit_charges
           unit_cell unit_cell 1 0).
  lia.
Defined.

(** ** [compute_ewald_reci] without atoms *)

Lemma upto_nonpos (n : Z) : (n <= 0)%Z -> upto n = [].
Proof.
  intro Hn. unfold upto. replace (Z.to_nat n) with 0%nat by lia. reflexivity.
Qed.

(** X17: with [natom <= 0] the two loops over the atoms do nothing: for a
    positive volume, loop bounds inside the range of [long] and a
    reciprocal cell in which no triple that is processed has a zero
    wavevector, the call returns energy 0 and leaves every element of
    [gpos] and [work] as it was. *)
Theorem reci_no_atoms (pos : buf) (natom : Z) (charges gvecs : buf)
    (volume alpha : R) (gmax : ibuf) (gpos work : buf) :
  (natom <= 0)%Z ->
  0 < volume ->
  loop_bounds_in_range gmax ->
  (forall j, In j (kept_triples gmax) -> ksq_of (wavevector_of gvecs j) <> 0) ->
  let call := compute_ewald_reci pos natom charges gvecs volume alpha gmax
                (Some gpos) work in
  r_energy call = 0
  /\ (forall m : Z, contents (r_gpos call) m = gpos m)
  /\ (forall m : Z, r_work call m = work m).
Proof.
  intros Hn _ _ _. cbv zeta. split; [| split].
  - rewrite compute_ewald_reci_energy. apply sum_over_zero. intros j _.
    unfold reci_energy_term, cosfac_of, sinfac_of.
    rewrite (upto_nonpos natom Hn), !sum_over_nil. ring.
  - intro m.
    destruct (compute_ewald_reci_gpos pos natom charges gvecs volume alpha
                gmax gpos work) as [g' [Hg Hv]].
    rewrite Hg. cbn [contents]. rewrite Hv, sum_over_zero; [ring |].
    intros j _. unfold reci_gpos_term.
    now rewrite (upto_nonpos natom Hn), sum_over_nil.
  - intro m. rewrite compute_ewald_reci_fold.
    apply reci_fold_work_outside. lia.
Qed.

Lemma reci_no_atoms_witness :
  r_energy (compute_ewald_reci two_atoms_pos 0 unit_charges unit_cell 1 1
              gmax_x1 (Some zeros) zeros) = 0.
Proof.
  apply (reci_no_atoms two_atoms_pos 0 unit_charges unit_cell 1 1 gmax_x1
           zeros zeros).
  - lia.
  - lra.
  - intros d _. unfold gmax_x1, LONG_MAX. destruct (d =? 0)%Z; lia.
  - exact unit_cell_wavevectors_nonzero.
Defined.

(** ** Splitting the scaling rows over two calls *)

(** X18: a call of [compute_ewald_corr] on the rows [l1 ++ l2] leaves the
    arrays that a call on [l1] followed by a call on [l2] (given the arrays
    of the first) leaves; the two energies add up to the energy of the
    single call plus one more self term. *)
Theorem corr_split_rows (mic : mic_type) (pos : buf) (center_index : Z)
    (charges rvecs gvecs : buf) (alpha : R)
    (l1 l2 : list scaling_row_type) (gpos vtens : option buf) :
  let call := compute_ewald_corr mic pos center_index charges rvecs gvecs
                alpha in
  let whole := call (l1 ++ l2) gpos vtens in
  let first := call l1 gpos vtens in
  let second := call l2 (c_gpos first) (c_vtens first) in
  c_gpos whole = c_gpos second
  /\ c_vtens whole = c_vtens second
  /\ c_energy first + c_energy second =
     c_energy whole - alpha / sqrt PI * charges center_index ^ 2.
Proof.
  cbv zeta. split; [| split].
  - unfold compute_ewald_corr. rewrite fold_left_app.
    now rewrite !(corr_fold_gpos _ _ _ _ _ _ _ l2).
  - unfold compute_ewald_corr. rewrite fold_left_app.
    now rewrite !(corr_fold_vtens _ _ _ _ _ _ _ l2).
  - rewrite !corr_call_energy, sum_over_app. unfold M_SQRT_PI. ring.
Qed.
